(** * EBTorchProcess: the orchestrator of the luajit training workers

    A shallow embedding of the class [EBTorchProcess]: the pool of worker
    processes, the record of loaded object identifiers, the round-robin
    dispatch of evaluations and the bounded polling for network diagrams.

    The object [self] is an explicit record that every method takes and
    returns.  Everything a method does to the outside world (spawning a
    process, writing a message to a worker, killing a process, listing the
    script folder, arming a timer, running the [dot] renderer) is appended
    to a chronological log of events; what the outside world answers is read
    from a [host] record that sees the log so far, so a worker may answer
    differently each time it is asked.  Where the order in which concurrent
    operations complete matters (the spawns of [startProcess]), the host
    decides it. *)

From stdpp Require Import gmap strings list fin_maps.
From Stdlib Require Import ZArith Ascii.

Open Scope string_scope.
Open Scope nat_scope.
Open Scope list_scope.

(** ** Promises *)

Definition error := string.

(** The fate of a promise (or of a node-style callback): it resolves with a
    value, it rejects with an error, or it never settles. *)
Inductive promise (A : Type) : Type :=
  | Resolved (a : A)
  | Rejected (e : error)
  | Pending.
Arguments Resolved {A} a.
Arguments Rejected {A} e.
Arguments Pending {A}.

(** ** JavaScript arrays: the two methods the residency record relies on *)

Module JS.

(** [Array.prototype.indexOf]: the first index holding [x], or [-1]. *)
Fixpoint indexOf_from (l : list string) (x : string) (i : Z) : Z :=
  match l with
  | [] => (-1)%Z
  | y :: l' => if decide (y = x) then i else indexOf_from l' x (i + 1)%Z
  end.

Definition indexOf (l : list string) (x : string) : Z := indexOf_from l x 0%Z.

(** [Array.prototype.splice(start, deleteCount)] with no inserted items:
    a negative [start] counts from the end (clamped at 0), a [start] past
    the end is clamped to the length, and [deleteCount] is clamped to what
    is left after [start]. *)
Definition splice {A} (l : list A) (start deleteCount : Z) : list A :=
  let len := Z.of_nat (length l) in
  let actualStart :=
    if (start <? 0)%Z then Z.max (len + start) 0 else Z.min start len in
  let actualDeleteCount := Z.min (Z.max deleteCount 0) (len - actualStart) in
  take (Z.to_nat actualStart) l
    ++ drop (Z.to_nat (actualStart + actualDeleteCount)) l.

(** The members every plain object inherits from [Object.prototype]. *)
Definition Object_prototype : list string :=
  ["constructor"; "hasOwnProperty"; "isPrototypeOf"; "propertyIsEnumerable";
   "toLocaleString"; "toString"; "valueOf";
   "__defineGetter__"; "__defineSetter__";
   "__lookupGetter__"; "__lookupSetter__"; "__proto__"].

(** A plain object [{}] that the program fills by [a[key] = v] with values
    of one kind [V] (objects themselves) and reads by [a[key]].  An
    assignment creates or replaces an own property, except under the key
    ["__proto__"], which creates none: there the value assigned last is
    kept as [rebound], and from then on properties that [a] does not own
    are looked up on the assigned values instead of on [Object.prototype]
    alone. *)
Record plain (V : Type) : Type :=
  Plain { own : gmap string V; rebound : option V }.
Arguments Plain {V} own rebound.
Arguments own {V} p.
Arguments rebound {V} p.

(** [{}] *)
Definition empty {V} : plain V := {| own := ∅; rebound := None |}.

(** [a[key] = v] *)
Definition assign {V} (key : string) (v : V) (a : plain V) : plain V :=
  if decide (key = "__proto__")
  then {| own := own a; rebound := Some v |}
  else {| own := <[key := v]> (own a); rebound := rebound a |}.

(** What [a[key]] evaluates to: [undefined]; a value that was assigned to
    [a]; the built-in member [name] of [Object.prototype] (for
    ["__proto__"], [Object.prototype] itself); or, once ["__proto__"] has
    been assigned, whatever the assigned values hold under [name], which
    depends on fields the model keeps opaque. *)
Inductive property (V : Type) : Type :=
  | Undefined
  | Stored (v : V)
  | Inherited (name : string)
  | Rebound (name : string).
Arguments Undefined {V}.
Arguments Stored {V} v.
Arguments Inherited {V} name.
Arguments Rebound {V} name.

(** [a[key]] *)
Definition get {V} (a : plain V) (key : string) : property V :=
  if decide (key = "__proto__")
  then match rebound a with
       | Some v => Stored v
       | None => Inherited key
       end
  else
    match own a !! key with
    | Some v => Stored v
    | None =>
        match rebound a with
        | Some _ => Rebound key
        | None =>
            if decide (key ∈ Object_prototype) then Inherited key
            else Undefined
        end
    end.

End JS.

(** ** The wire protocol *)

(** A handle on one spawned worker (an [EBStdioJSONStreamProcess]). *)
Record process := Process { pid : nat }.

(** The request records the orchestrator writes to a worker. *)
Inductive message :=
  | MsgHandshake
  | MsgReset
  | MsgStore (id input output : string)
  | MsgForget (id : string)
  | MsgEvaluate (samples : list string)
  | MsgEvaluateBatch (batchFilename : string)
  | MsgIteration (batchFilename : string).

(** The [type] field of each request. *)
Definition msg_type (m : message) : string :=
  match m with
  | MsgHandshake => "handshake"
  | MsgReset => "reset"
  | MsgStore _ _ _ => "store"
  | MsgForget _ => "forget"
  | MsgEvaluate _ => "evaluate"
  | MsgEvaluateBatch _ => "evaluateBatch"
  | MsgIteration _ => "iteration"
  end.

(** An evaluated object as a worker returns it: its [id] and the rest of
    its fields, kept opaque. *)
Record object := Object { id : string; fields : string }.

(** A record read from a worker's output stream: its [type] field when it
    has one, and the [objects] list an ["evaluationCompleted"] reply
    carries (empty on other replies). *)
Record output := Output { o_type : option string; objects : list object }.

(** What arrives on a worker's output stream after a request: records, or
    the failure of the stream. *)
Inductive stream_item :=
  | Data (o : output)
  | Broken (e : error).

(** Modelled from the spec: [EBStdioJSONStreamProcess], the class behind
    [writeAndWaitForMatchingOutput], is not among the sources.  The exchange
    resolves with the first record whose [type] equals the expected one;
    records of another type (log lines) never satisfy it; it fails when the
    stream fails first, and stays pending when no matching record comes. *)
Fixpoint awaitMatchingOutput (expected : string) (s : list stream_item)
  : promise output :=
  match s with
  | [] => Pending
  | Data o :: s' =>
      if decide (o_type o = Some expected) then Resolved o
      else awaitMatchingOutput expected s'
  | Broken e :: _ => Rejected e
  end.

(** ** Effects and the host *)

(** [EvSpawn] is [spawn('luajit', ['TrainingScript.lua', n, total],
    {cwd})]; [EvWrite] one [writeAndWaitForMatchingOutput]; [EvExec] the
    command [dot -Grankdir=LR <dir>/<file> -Tsvg] run with [maxBuffer]. *)
Inductive event :=
  | EvSpawn (command script : string) (n total : nat) (cwd : option string)
  | EvWrite (p : process) (m : message) (expected : string)
  | EvKill (p : process)
  | EvReaddir (dir : option string)
  | EvSetTimeout (ms : nat)
  | EvExec (file : string) (dir : option string) (maxBuffer : N).

(** The outside world.  Every answer may depend on the events so far.
    [spawn] is the outcome of [EBStdioJSONStreamProcess.spawn] for the
    worker of a given index, and [arrival] the time at which that outcome
    is known (the spawns are started together, and complete in the order
    of their arrival times, a lower index first among equal times);
    [worker] is what a worker writes back after a message, [readdir] the
    listing of the script folder ([fs.readdir] lists no null folder: there
    the answer is the error it throws), [exec_dot] the standard output of
    the renderer on one file (an error for a non-zero exit or for an output
    above the buffer bound), and [base64] is
    [new Buffer(s).toString('base64')]. *)
Record host := Host {
  spawn : list event → nat → promise process;
  arrival : list event → nat → nat;
  worker : list event → process → message → list stream_item;
  readdir : list event → option string → error + list string;
  exec_dot : list event → string → error + string;
  base64 : string → string
}.

(** A computation against the host: it reads and extends the log. *)
Definition io (A : Type) : Type := list event → promise A * list event.

(** The fields of [self] the modelled methods read or write. *)
Record EBTorchProcess := Self {
  scriptFolder : option string;
  processes : list process;
  allLoadedEntries : list string;
  numProcesses : nat
}.

(** [new EBTorchProcess(architecture, scriptFolder)], where
    [self.scriptFolder = scriptFolder || null]: a folder that is left out
    or is the empty string leaves [null]. *)
Definition constructor (folder : option string) : EBTorchProcess :=
  {| scriptFolder := match folder with
                     | Some "" => None
                     | _ => folder
                     end;
     processes := [];
     allLoadedEntries := []; numProcesses := 1 |}.

Definition set_allLoadedEntries (self : EBTorchProcess) (l : list string)
  : EBTorchProcess :=
  {| scriptFolder := scriptFolder self; processes := processes self;
     allLoadedEntries := l; numProcesses := numProcesses self |}.

Definition set_processes (self : EBTorchProcess) (ps : list process)
  : EBTorchProcess :=
  {| scriptFolder := scriptFolder self; processes := ps;
     allLoadedEntries := allLoadedEntries self;
     numProcesses := numProcesses self |}.

(** ** The async and bluebird combinators *)

(** Bluebird's [Promise.each]: the items are visited one at a time, in
    order; the next one starts only when the promise of the previous one
    has resolved; the first rejection rejects the whole and nothing more is
    visited. *)
Fixpoint each_loop {A B} (items : list A) (f : A → io B) : io unit :=
  λ log,
    match items with
    | [] => (Resolved (), log)
    | x :: rest =>
        match f x log with
        | (Resolved _, log') => each_loop rest f log'
        | (Rejected e, log') => (Rejected e, log')
        | (Pending, log') => (Pending, log')
        end
    end.

(** It resolves with the array it was given. *)
Definition Promise_each {A B} (items : list A) (f : A → io B)
  : io (list A) :=
  λ log,
    match each_loop items f log with
    | (Resolved _, log') => (Resolved items, log')
    | (Rejected e, log') => (Rejected e, log')
    | (Pending, log') => (Pending, log')
    end.

(** [async.map] and [async.times] start the iteratee on every item at once,
    in index order, before any of them completes. *)
Fixpoint launch_all {A B} (items : list A) (f : A → io B)
  : list event → list (promise B) * list event :=
  λ log,
    match items with
    | [] => ([], log)
    | x :: rest =>
        let '(fate, log1) := f x log in
        let '(fates, log2) := launch_all rest f log1 in
        (fate :: fates, log2)
    end.

(** The final callback of [async.map]: an error as soon as one iteratee
    fails, the results in the order of the items once all have succeeded,
    and nothing while one is outstanding and none has failed.  When several
    iteratees fail the error that arrives first is reported; the model
    reports the one of lowest index. *)
Fixpoint async_collect {B} (fates : list (promise B)) : promise (list B) :=
  match fates with
  | [] => Resolved []
  | Resolved b :: rest =>
      match async_collect rest with
      | Resolved bs => Resolved (b :: bs)
      | Rejected e => Rejected e
      | Pending => Pending
      end
  | Rejected e :: _ => Rejected e
  | Pending :: rest =>
      match async_collect rest with
      | Rejected e => Rejected e
      | _ => Pending
      end
  end.

Definition async_map {A B} (items : list A) (f : A → io B) : io (list B) :=
  λ log,
    let '(fates, log') := launch_all items f log in
    (async_collect fates, log').

(** The order in which [n] operations started together complete, given the
    time at which each does: by time, and by index among equal times. *)
Fixpoint insert_by (time : nat → nat) (i : nat) (sorted : list nat)
  : list nat :=
  match sorted with
  | [] => [i]
  | j :: rest =>
      if time i <=? time j then i :: sorted
      else j :: insert_by time i rest
  end.

Definition completion_order (time : nat → nat) (n : nat) : list nat :=
  foldr (insert_by time) [] (seq 0 n).

(** [async.retry(times, task, callback)] with [times >= 1]: the task is run
    again after each failure, [times] runs at most; the first success ends
    it, and the error of the last run is the error of the whole.
    [retry_loop more] makes one run and up to [more] further ones. *)
Fixpoint retry_loop {A} (more : nat) (task : io A) : io A :=
  λ log,
    match task log with
    | (Rejected e, log') =>
        match more with
        | 0 => (Rejected e, log')
        | S more' => retry_loop more' task log'
        end
    | settled => settled
    end.

Definition async_retry {A} (times : nat) (task : io A) : io A :=
  retry_loop (times - 1) task.

(** ** The methods of EBTorchProcess *)

(** One entry of [processBatches]. *)
Record batch := Batch { samples : list string; process_of : process }.

Definition push_sample (id : string) (b : batch) : batch :=
  {| samples := samples b ++ [id]; process_of := process_of b |}.

(** [ids.forEach((id, index) =>
      processBatches[index % processBatches.length].samples.push(id))],
    from position [index] on.  With no process at all, [index % 0] is [NaN]
    and [processBatches[NaN].samples] throws: [None]. *)
Fixpoint distribute (ids : list string) (index : nat)
    (processBatches : list batch) : option (list batch) :=
  match ids with
  | [] => Some processBatches
  | id :: rest =>
      match length processBatches with
      | 0 => None
      | S _ =>
          distribute rest (S index)
            (alter (push_sample id) (index mod length processBatches)
               processBatches)
      end
  end.

(** [const allResults = {}] and then [allResults[object.id] = object], over
    every object of every reply, in order: a later object replaces an
    earlier one of the same id. *)
Definition merge_results (results : list output) : JS.plain object :=
  fold_left
    (λ allResults processResults,
       fold_left (λ acc object, JS.assign (id object) object acc)
         (objects processResults) allResults)
    results JS.empty.

(** [/^.*\.dot$/]: the dot matches any character but a line terminator
    (LF, CR, and U+2028 and U+2029, here in their UTF-8 bytes). *)
Fixpoint has_line_terminator (s : string) : bool :=
  match s with
  | EmptyString => false
  | String c s' =>
      if Ascii.eqb c "010"%char || Ascii.eqb c "013"%char then true
      else
        match s' with
        | String d (String e _) =>
            if Ascii.eqb c "226"%char && Ascii.eqb d "128"%char
               && (Ascii.eqb e "168"%char || Ascii.eqb e "169"%char)
            then true
            else has_line_terminator s'
        | _ => has_line_terminator s'
        end
  end.

Definition is_dot_file (file : string) : bool :=
  let n := String.length file in
  (4 <=? n)
  && String.eqb (String.substring (n - 4) 4 file) ".dot"
  && negb (has_line_terminator (String.substring 0 (n - 4) file)).

(** An element of the list [extractNetworkDiagrams] resolves with. *)
Record diagram := Diagram { file : string; data : string }.

Definition retryAttempts : nat := 100.
Definition timeoutBetweenRetries : nat := 150.
Definition maxBufferSize : N := (10 * 1024 * 1024)%N.

Definition no_diagrams : error := "Could not find any architectural diagrams".

Section Orchestrator.

Variable E : host.

(** [process.writeAndWaitForMatchingOutput(message, {type: expected})] *)
Definition writeAndWaitForMatchingOutput
    (p : process) (m : message) (expected : string) : io output :=
  λ log, (awaitMatchingOutput expected (worker E log p m),
          log ++ [EvWrite p m expected]).

(** The pattern shared by [reset], [loadObject], [removeObject] and the
    handshake: one exchange per worker, through [Promise.each]. *)
Definition broadcast (ps : list process) (m : message) (expected : string)
  : io (list process) :=
  Promise_each ps (λ p, writeAndWaitForMatchingOutput p m expected).

(** The iteratee of [async.times] in [startProcess]. *)
Definition spawn_worker (self : EBTorchProcess) (n : nat) : io process :=
  λ log, (spawn E log n,
          log ++ [EvSpawn "luajit" "TrainingScript.lua" (n + 1)
                    (numProcesses self) (scriptFolder self)]).

(** The outcomes of the spawns in the order they become known; a spawn
    that never completes stays in the list as [Pending]. *)
Definition completions (log : list event) (fates : list (promise process))
  : list (promise process) :=
  map (λ n, default Pending (fates !! n))
    (completion_order (arrival E log) (length fates)).

(** The processes of the spawns that succeeded, in the order of the list:
    each is pushed onto [self.processes] by the [then] callback of its own
    spawn, whatever happens to the others. *)
Fixpoint spawned (fates : list (promise process)) : list process :=
  match fates with
  | [] => []
  | Resolved p :: rest => p :: spawned rest
  | _ :: rest => spawned rest
  end.

(** The first failure among the completions, which is when [async.times]
    calls back with its error, and the completions that come after it. *)
Fixpoint first_failure (completions : list (promise process))
  : option (error * list (promise process)) :=
  match completions with
  | [] => None
  | Rejected e :: rest => Some (e, rest)
  | _ :: rest => first_failure rest
  end.

(** The processes pushed before that first failure; all of them when no
    spawn fails. *)
Fixpoint pushed_first (completions : list (promise process))
  : list process :=
  match completions with
  | [] => []
  | Resolved p :: rest => p :: pushed_first rest
  | Rejected _ :: _ => []
  | Pending :: rest => pushed_first rest
  end.

(** [startProcess()]: [async.series] of the spawns and of the handshake,
    which runs over all of [self.processes] and only when every spawn has
    succeeded.  The first spawn to fail rejects the startup at once.  The
    [self] returned is the object as it is when the promise settles, or,
    for a promise that never settles, once every spawn that completes has
    done so. *)
Definition startProcess (self : EBTorchProcess)
  : list event → promise unit * EBTorchProcess * list event :=
  λ log,
    let '(fates, log1) :=
      launch_all (seq 0 (numProcesses self)) (spawn_worker self) log in
    let settled := completions log fates in
    let self1 :=
      set_processes self (processes self ++ pushed_first settled) in
    match first_failure settled with
    | Some (e, _) => (Rejected e, self1, log1)
    | None =>
        match async_collect fates with
        | Resolved _ =>
            match broadcast (processes self1) MsgHandshake "handshake" log1
            with
            | (Resolved _, log2) => (Resolved (), self1, log2)
            | (Rejected e, log2) => (Rejected e, self1, log2)
            | (Pending, log2) => (Pending, self1, log2)
            end
        | _ => (Pending, self1, log1)
        end
    end.

(** The processes that [startProcess] pushes onto [self.processes] after
    its promise has been rejected: those of the spawns that succeed after
    the first failure. *)
Definition late_spawns (self : EBTorchProcess) (log : list event)
  : list process :=
  let '(fates, _) :=
    launch_all (seq 0 (numProcesses self)) (spawn_worker self) log in
  match first_failure (completions log fates) with
  | Some (_, rest) => spawned rest
  | None => []
  end.


(** [reset()] *)
Definition reset (self : EBTorchProcess)
  : list event → promise (list process) * EBTorchProcess * list event :=
  λ log,
    let '(writeAndWaitPromise, log') :=
      broadcast (processes self) MsgReset "resetCompleted" log in
    (writeAndWaitPromise, self, log').

(** [loadObject(id, input, output)]: the [then] callback that pushes [id]
    runs only when [Promise.each] has resolved. *)
Definition loadObject (id input output : string) (self : EBTorchProcess)
  : list event → promise (list process) * EBTorchProcess * list event :=
  λ log,
    let message := MsgStore id input output in
    let '(writeAndWaitPromise, log') :=
      broadcast (processes self) message "stored" log in
    match writeAndWaitPromise with
    | Resolved _ =>
        (writeAndWaitPromise,
         set_allLoadedEntries self (allLoadedEntries self ++ [id]), log')
    | _ => (writeAndWaitPromise, self, log')
    end.

(** [removeObject(id)]: on success,
    [allLoadedEntries.splice(allLoadedEntries.indexOf(id), 1)]. *)
Definition removeObject (id : string) (self : EBTorchProcess)
  : list event → promise (list process) * EBTorchProcess * list event :=
  λ log,
    let message := MsgForget id in
    let '(writeAndWaitPromise, log') :=
      broadcast (processes self) message "forgotten" log in
    match writeAndWaitPromise with
    | Resolved _ =>
        (writeAndWaitPromise,
         set_allLoadedEntries self
           (JS.splice (allLoadedEntries self)
              (JS.indexOf (allLoadedEntries self) id) 1),
         log')
    | _ => (writeAndWaitPromise, self, log')
    end.

(** [processBatches]: one empty bucket per process, then the ids dealt
    round-robin. *)
Definition processBatches (self : EBTorchProcess) (ids : list string)
  : option (list batch) :=
  distribute ids 0
    (map (λ p, {| samples := []; process_of := p |}) (processes self)).

(** The iteratee of [async.map] in [processObjects]: an empty bucket
    yields [{objects: []}] at once and nothing is written. *)
Definition evaluate_batch (processBatch : batch) : io output :=
  λ log,
    if decide (length (samples processBatch) = 0)
    then (Resolved {| o_type := None; objects := [] |}, log)
    else
      writeAndWaitForMatchingOutput (process_of processBatch)
        (MsgEvaluate (samples processBatch)) "evaluationCompleted" log.

(** [processObjects(ids)]: the slot of [id] is [allResults[id]]. *)
Definition processObjects (ids : list string) (self : EBTorchProcess)
  : io (list (JS.property object)) :=
  λ log,
    match processBatches self ids with
    | None =>
        (Rejected "TypeError: Cannot read property 'samples' of undefined",
         log)
    | Some batches =>
        match async_map batches evaluate_batch log with
        | (Resolved results, log') =>
            let allResults := merge_results results in
            (Resolved (map (λ id, JS.get allResults id) ids), log')
        | (Rejected e, log') => (Rejected e, log')
        | (Pending, log') => (Pending, log')
        end
    end.

(** An exchange with [this.processes[0]]; with an empty pool the property
    access on [undefined] throws before any promise exists: [inl]. *)
Definition with_first_process {A} (self : EBTorchProcess)
    (k : process → list event → A) (log : list event) : error + A :=
  match processes self !! 0 with
  | None => inl "TypeError: Cannot read property of undefined"
  | Some p => inr (k p log)
  end.

(** [processBatch(batchFilename)] resolves with [result.objects]. *)
Definition processBatch (batchFilename : string) (self : EBTorchProcess)
  : list event → error + (promise (list object) * list event) :=
  with_first_process self
    (λ p log,
       match writeAndWaitForMatchingOutput p (MsgEvaluateBatch batchFilename)
               "evaluationCompleted" log with
       | (Resolved result, log') => (Resolved (objects result), log')
       | (Rejected e, log') => (Rejected e, log')
       | (Pending, log') => (Pending, log')
       end).

(** [executeTrainingIteration(batchFilename)] *)
Definition executeTrainingIteration (batchFilename : string)
    (self : EBTorchProcess)
  : list event → error + (promise output * list event) :=
  with_first_process self
    (λ p log,
       writeAndWaitForMatchingOutput p (MsgIteration batchFilename)
         "iterationCompleted" log).

(** The iteratee of [async.map] in [extractNetworkDiagrams]. *)
Definition render (self : EBTorchProcess) (f : string) : io diagram :=
  λ log,
    (match exec_dot E log f with
     | inl err => Rejected err
     | inr result => Resolved {| file := f; data := base64 E result |}
     end,
     log ++ [EvExec f (scriptFolder self) maxBufferSize]).

(** The task handed to [async.retry]: one listing of the script folder.
    With no diagram file, its failure is reported only when the timer of
    [timeoutBetweenRetries] milliseconds fires.  (The case of a null script
    folder, where [fs.readdir] does not call back, is in
    [extractNetworkDiagrams].) *)
Definition poll_diagrams (self : EBTorchProcess) : io (list diagram) :=
  λ log,
    let log1 := log ++ [EvReaddir (scriptFolder self)] in
    match readdir E log (scriptFolder self) with
    | inl err => (Rejected err, log1)
    | inr files =>
        let dotFiles := List.filter is_dot_file files in
        if decide (length dotFiles = 0)
        then (Rejected no_diagrams,
              log1 ++ [EvSetTimeout timeoutBetweenRetries])
        else async_map dotFiles (render self) log1
    end.

(** [extractNetworkDiagrams()].  When [self.scriptFolder] is [null],
    [fs.readdir] throws (a [TypeError]) instead of calling back; this is in
    the first run of the task, which [async.retry] starts within the
    executor of [Promise.fromCallback]: the promise is rejected with that
    error after the one call, and nothing is retried. *)
Definition extractNetworkDiagrams (self : EBTorchProcess)
  : io (list diagram) :=
  λ log,
    match scriptFolder self, readdir E log (scriptFolder self) with
    | None, inl err => (Rejected err, log ++ [EvReaddir None])
    | _, _ => async_retry retryAttempts (poll_diagrams self) log
    end.

End Orchestrator.

(** ** Residency operations in sequence *)

Inductive residency_op :=
  | Load (id input output : string)
  | Unload (id : string).

(** Each operation is awaited before the next one is issued; whatever its
    outcome, the next one runs on the state it left. *)
Fixpoint run_ops (E : host) (ops : list residency_op) (self : EBTorchProcess)
    (log : list event) : EBTorchProcess * list event :=
  match ops with
  | [] => (self, log)
  | Load id input output :: rest =>
      let '(_, self', log') := loadObject E id input output self log in
      run_ops E rest self' log'
  | Unload id :: rest =>
      let '(_, self', log') := removeObject E id self log in
      run_ops E rest self' log'
  end.

(** ** Concrete hosts and pools *)

Module Scenario.

(** The reply type each request waits for. *)
Definition reply_type (m : message) : string :=
  match m with
  | MsgHandshake => "handshake"
  | MsgReset => "resetCompleted"
  | MsgStore _ _ _ => "stored"
  | MsgForget _ => "forgotten"
  | MsgEvaluate _ | MsgEvaluateBatch _ => "evaluationCompleted"
  | MsgIteration _ => "iterationCompleted"
  end.

(** A worker that logs a line and then answers every request as expected;
    an evaluation returns one object per sample. *)
Definition obedient : list event → process → message → list stream_item :=
  λ _ _ m,
    [Data {| o_type := Some "log"; objects := [] |};
     Data {| o_type := Some (reply_type m);
             objects :=
               match m with
               | MsgEvaluate samples => map (λ s, Object s "evaluated") samples
               | _ => []
               end |}].

(** Every spawn succeeds, every worker is obedient, the script folder
    holds no diagram. *)
Definition calm : host :=
  {| spawn := λ _ n, Resolved (Process n);
     arrival := λ _ n, n;
     worker := obedient;
     readdir := λ _ _, inr ["TrainingScript.lua"; "model.t7"];
     exec_dot := λ _ _, inr "<svg/>";
     base64 := λ s, s |}.


(** The stream of the second worker breaks on a store request. *)
Definition second_worker_breaks : host :=
  {| spawn := spawn calm;
     arrival := arrival calm;
     worker := λ l p m,
       match m with
       | MsgStore _ _ _ =>
           if decide (pid p = 1) then [Broken "write EPIPE"]
           else obedient l p m
       | _ => obedient l p m
       end;
     readdir := readdir calm;
     exec_dot := exec_dot calm;
     base64 := base64 calm |}.

(** Two diagrams in the folder; the renderer fails on the first only. *)
Definition first_render_fails : host :=
  {| spawn := spawn calm;
     arrival := arrival calm;
     worker := obedient;
     readdir := λ _ _, inr ["a.dot"; "TrainingScript.lua"; "b.dot"];
     exec_dot := λ _ f, if decide (f = "a.dot") then inl "Command failed"
                        else inr "<svg/>";
     base64 := base64 calm |}.

Definition pool (n : nat) : EBTorchProcess :=
  {| scriptFolder := Some "/tmp/electric-brain-model";
     processes := map Process (seq 0 n);
     allLoadedEntries := [];
     numProcesses := n |}.

(** An orchestrator configured for [n] workers, before [startProcess]. *)
Definition fresh (n : nat) : EBTorchProcess :=
  {| scriptFolder := Some "/tmp/electric-brain-model";
     processes := [];
     allLoadedEntries := [];
     numProcesses := n |}.

End Scenario.

(** ** Vocabulary of the statements *)

(** The events of one exchange with each process of [ps], in order. *)
Definition writes (ps : list process) (m : message) (expected : string)
  : list event :=
  map (λ p, EvWrite p m expected) ps.

(** In a sequential broadcast of [m] started at [log], the fate of the
    exchange with the [k]-th process: that process is written to after the
    [k] before it. *)
Definition exchange_at (E : host) (log : list event) (ps : list process)
    (m : message) (expected : string) (k : nat) : promise output :=
  match ps !! k with
  | Some p =>
      awaitMatchingOutput expected
        (worker E (log ++ writes (take k ps) m expected) p m)
  | None => Pending
  end.

(** What a sequential broadcast has done when its promise has the fate
    [result] and the log has become [log']: every process was written to
    and replied with the expected type; or the exchanges stopped at the
    first process whose exchange failed (or never completed), every process
    before it having replied, and none after it having been written to. *)
Definition sequential_exchanges (E : host) (log : list event)
    (ps : list process) (m : message) (expected : string)
    (result : promise (list process)) (log' : list event) : Prop :=
  match result with
  | Resolved value =>
      value = ps
      ∧ log' = log ++ writes ps m expected
      ∧ ∀ k, k < length ps →
          ∃ o, exchange_at E log ps m expected k = Resolved o
               ∧ o_type o = Some expected
  | Rejected e =>
      ∃ k, k < length ps
           ∧ exchange_at E log ps m expected k = Rejected e
           ∧ (∀ j, j < k →
                ∃ o, exchange_at E log ps m expected j = Resolved o)
           ∧ log' = log ++ writes (take (S k) ps) m expected
  | Pending =>
      ∃ k, k < length ps
           ∧ exchange_at E log ps m expected k = Pending
           ∧ (∀ j, j < k →
                ∃ o, exchange_at E log ps m expected j = Resolved o)
           ∧ log' = log ++ writes (take (S k) ps) m expected
  end.

(** The spawn events of the first [k] workers of [startProcess]. *)
Definition spawn_events (self : EBTorchProcess) (k : nat) : list event :=
  map (λ n, EvSpawn "luajit" "TrainingScript.lua" (n + 1)
              (numProcesses self) (scriptFolder self))
    (seq 0 k).

(** The fate of the spawn of worker [n] in a [startProcess] begun at
    [log]. *)
Definition spawn_at (E : host) (self : EBTorchProcess) (log : list event)
    (n : nat) : promise process :=
  spawn E (log ++ spawn_events self n) n.

(** The write of one bucket of [processObjects]. *)
Definition evaluate_write (b : batch) : event :=
  EvWrite (process_of b) (MsgEvaluate (samples b)) "evaluationCompleted".


(** The objects of all the replies, in reply order. *)
Definition returned (results : list output) : list object :=
  concat (map objects results).

(** Number of listings of the script folder among some events. *)
Definition is_readdir (e : event) : bool :=
  match e with EvReaddir _ => true | _ => false end.

Definition polls (l : list event) : nat := length (List.filter is_readdir l).

(** The events [a] of one attempt of [extractNetworkDiagrams] begun at [l]:
    the listing, and then nothing when the listing fails, the timer of
    150 ms when it holds no diagram file, and otherwise one run of the
    renderer per diagram file. *)
Definition one_attempt (E : host) (self : EBTorchProcess) (l a : list event)
  : Prop :=
  match readdir E l (scriptFolder self) with
  | inl _ => a = [EvReaddir (scriptFolder self)]
  | inr files =>
      match List.filter is_dot_file files with
      | [] => a = [EvReaddir (scriptFolder self); EvSetTimeout 150]
      | dotFiles =>
          a = EvReaddir (scriptFolder self)
                :: map (λ f, EvExec f (scriptFolder self) maxBufferSize)
                     dotFiles
      end
  end.

(** ** Vocabulary of the further statements *)

(** Milliseconds of timers armed among some events. *)
Definition waited (l : list event) : nat :=
  fold_right (λ ev acc, match ev with EvSetTimeout ms => ms + acc | _ => acc end)
    0 l.

(** The events [extractNetworkDiagrams] can cause: listing the folder,
    arming a timer, running the renderer. *)
Definition is_diagram_event (ev : event) : Prop :=
  match ev with
  | EvReaddir _ | EvSetTimeout _ | EvExec _ _ _ => True
  | _ => False
  end.

(** Number of [Load] operations of a sequence. *)
Definition loads (ops : list residency_op) : nat :=
  length (List.filter (λ op, match op with Load _ _ _ => true | _ => false end)
            ops).

(** Further hosts. *)
Module Cases.

(** Every worker answers, the second one excepted on an evaluation. *)
Definition second_worker_fails_evaluation : host :=
  {| spawn := spawn Scenario.calm;
     arrival := arrival Scenario.calm;
     worker := λ l p m,
       match m with
       | MsgEvaluate _ =>
           if decide (pid p = 1) then [Broken "read ECONNRESET"]
           else Scenario.obedient l p m
       | _ => Scenario.obedient l p m
       end;
     readdir := readdir Scenario.calm;
     exec_dot := exec_dot Scenario.calm;
     base64 := base64 Scenario.calm |}.

(** The stream of the second worker breaks on a forget request. *)
Definition second_worker_breaks_on_forget : host :=
  {| spawn := spawn Scenario.calm;
     arrival := arrival Scenario.calm;
     worker := λ l p m,
       match m with
       | MsgForget _ =>
           if decide (pid p = 1) then [Broken "write EPIPE"]
           else Scenario.obedient l p m
       | _ => Scenario.obedient l p m
       end;
     readdir := readdir Scenario.calm;
     exec_dot := exec_dot Scenario.calm;
     base64 := base64 Scenario.calm |}.

(** The diagrams appear in the folder once two listings have been made. *)
Definition diagrams_appear_late : host :=
  {| spawn := spawn Scenario.calm;
     arrival := arrival Scenario.calm;
     worker := Scenario.obedient;
     readdir := λ l _,
       if decide (polls l < 2) then inr ["TrainingScript.lua"]
       else inr ["net.dot"; "TrainingScript.lua"; "criterion.dot"];
     exec_dot := λ _ f, inr ("<svg>" +:+ f +:+ "</svg>");
     base64 := λ s, s |}.

(** The script folder cannot be listed. *)
Definition folder_unreadable : host :=
  {| spawn := spawn Scenario.calm;
     arrival := arrival Scenario.calm;
     worker := Scenario.obedient;
     readdir := λ _ _, inl "ENOENT: no such file or directory";
     exec_dot := exec_dot Scenario.calm;
     base64 := base64 Scenario.calm |}.


(** The first spawn fails; the others succeed, later. *)
Definition first_spawn_fails : host :=
  {| spawn := λ _ n, if decide (n = 0) then Rejected "spawn EAGAIN"
                     else Resolved (Process n);
     arrival := λ _ n, n;
     worker := Scenario.obedient;
     readdir := readdir Scenario.calm;
     exec_dot := exec_dot Scenario.calm;
     base64 := base64 Scenario.calm |}.

(** Every spawn succeeds, the later the index the sooner. *)
Definition last_spawn_first : host :=
  {| spawn := spawn Scenario.calm;
     arrival := λ _ n, 10 - n;
     worker := Scenario.obedient;
     readdir := readdir Scenario.calm;
     exec_dot := exec_dot Scenario.calm;
     base64 := base64 Scenario.calm |}.

(** The renderer fails on [a.dot] during the first attempt only. *)
Definition first_attempt_fails : host :=
  {| spawn := spawn Scenario.calm;
     arrival := arrival Scenario.calm;
     worker := Scenario.obedient;
     readdir := λ _ _, inr ["a.dot"; "b.dot"];
     exec_dot := λ l f,
       if decide (polls l < 2 ∧ f = "a.dot") then inl "Command failed"
       else inr ("<svg>" +:+ f +:+ "</svg>");
     base64 := λ s, s |}.

(** A file system as [fs.readdir] sees it: a null folder makes it throw, any
    other folder is listed, and holds no diagram. *)
Definition no_folder : host :=
  {| spawn := spawn Scenario.calm;
     arrival := arrival Scenario.calm;
     worker := Scenario.obedient;
     readdir := λ _ dir,
       match dir with
       | None => inl "TypeError: path must be a string"
       | Some _ => inr ["TrainingScript.lua"]
       end;
     exec_dot := exec_dot Scenario.calm;
     base64 := base64 Scenario.calm |}.

(** The first spawn never completes. *)
Definition first_spawn_hangs : host :=
  {| spawn := λ _ n, if decide (n = 0) then Pending else Resolved (Process n);
     arrival := arrival Scenario.calm;
     worker := Scenario.obedient;
     readdir := readdir Scenario.calm;
     exec_dot := exec_dot Scenario.calm;
     base64 := base64 Scenario.calm |}.

End Cases.

(** ** The methods outside the worker protocol of the claims *)

Definition set_scriptFolder (self : EBTorchProcess) (folder : option string)
  : EBTorchProcess :=
  {| scriptFolder := folder; processes := processes self;
     allLoadedEntries := allLoadedEntries self;
     numProcesses := numProcesses self |}.

(** A computation on a world [W] (a log, or a log and a counter). *)
Definition action (W A : Type) : Type := W → promise A * W.

(** [Promise.each] and [async.eachSeries] on any world: one item at a time,
    in order, stopping at the first that does not succeed. *)
Fixpoint each_in {W A B} (items : list A) (f : A → action W B)
  : action W unit :=
  λ w,
    match items with
    | [] => (Resolved (), w)
    | x :: rest =>
        match f x w with
        | (Resolved _, w') => each_in rest f w'
        | (Rejected e, w') => (Rejected e, w')
        | (Pending, w') => (Pending, w')
        end
    end.

(** *** generateCode *)

Module CodeGeneration.

(** A record of the list the code generator returns. *)
Record file_record := FileRecord { path : string; data : string }.

(** [FsMkdir] is [temp.mkdir(prefix)], [FsGenerateFiles] the call of
    [architecture.generateFiles], [FsWriteFile] a [fs.writeFile] of a file
    of the script folder, [FsReaddirLib] the [fs.readdirSync] of the
    directory [lib/lua] and [FsReadLib] the [fs.readFile] of one of its
    files. *)
Inductive fs_event :=
  | FsMkdir (prefix : string)
  | FsGenerateFiles
  | FsWriteFile (dir : option string) (name contents : string)
  | FsReaddirLib
  | FsReadLib (name : string).

(** The file system and the code generator.  [generateFiles] answers [inl]
    when the generator throws; [writeFile] answers the error, if any.  The
    listing of [lib/lua], a directory of the installation, is taken to
    succeed. *)
Record fs_host := FsHost {
  temp_mkdir : list fs_event → string → error + string;
  generateFiles : list fs_event → error + list file_record;
  writeFile : list fs_event → option string → string → string → option error;
  lib_readdirSync : list fs_event → list string;
  lib_readFile : list fs_event → string → error + string
}.

(** The counter [totalFiles] and the log. *)
Definition gen_world : Type := nat * list fs_event.

Definition write_outcome (answer : option error) : promise unit :=
  match answer with
  | None => Resolved ()
  | Some err => Rejected err
  end.

(** The iteratee of [Promise.each(files, ...)]: count, then write. *)
Definition write_generated_file (F : fs_host) (folder : option string)
    (file : file_record) : action gen_world unit :=
  λ w,
    let '(totalFiles, log) := w in
    (write_outcome (writeFile F log folder (path file) (data file)),
     (S totalFiles, log ++ [FsWriteFile folder (path file) (data file)])).

(** The iteratee of [async.eachSeries(libraryFiles, ...)]: read, and when
    the read succeeds count, then write. *)
Definition copy_library_file (F : fs_host) (folder : option string)
    (filename : string) : action gen_world unit :=
  λ w,
    let '(totalFiles, log) := w in
    let log1 := log ++ [FsReadLib filename] in
    match lib_readFile F log filename with
    | inl err => (Rejected err, (totalFiles, log1))
    | inr buffer =>
        (write_outcome (writeFile F log1 folder filename buffer),
         (S totalFiles, log1 ++ [FsWriteFile folder filename buffer]))
    end.

(** The first task of [async.series].  [writeFilePromise.then(() =>
    next())] has no rejection handler: when a write fails [next] is never
    called. *)
Definition writeGeneratedFiles (F : fs_host) (self : EBTorchProcess)
  : gen_world → promise unit * EBTorchProcess * gen_world :=
  λ w,
    let '(totalFiles, log) := w in
    let log1 := log ++ [FsMkdir "electric-brain-model"] in
    match temp_mkdir F log "electric-brain-model" with
    | inl err => (Rejected err, self, (totalFiles, log1))
    | inr temporaryFolder =>
        let self1 := set_scriptFolder self (Some temporaryFolder) in
        let log2 := log1 ++ [FsGenerateFiles] in
        match generateFiles F log1 with
        | inl err => (Rejected err, self1, (totalFiles, log2))
        | inr files =>
            match each_in files
                    (write_generated_file F (scriptFolder self1))
                    (totalFiles, log2) with
            | (Resolved _, w') => (Resolved (), self1, w')
            | (_, w') => (Pending, self1, w')
            end
        end
    end.

(** The second task. *)
Definition writeLibraryFiles (F : fs_host) (self : EBTorchProcess)
  : action gen_world unit :=
  λ w,
    let '(totalFiles, log) := w in
    let libraryFiles := lib_readdirSync F log in
    each_in libraryFiles (copy_library_file F (scriptFolder self))
      (totalFiles, log ++ [FsReaddirLib]).

(** The third task: in the source, the same text as the second. *)
Definition writeElectricBrainLibrary (F : fs_host) (self : EBTorchProcess)
  : action gen_world unit :=
  λ w,
    let '(totalFiles, log) := w in
    let libraryFiles := lib_readdirSync F log in
    each_in libraryFiles (copy_library_file F (scriptFolder self))
      (totalFiles, log ++ [FsReaddirLib]).

(** [generateCode(registry, neuralNetworkComponentDispatch)]: the three
    tasks in series; it resolves with [totalFiles]. *)
Definition generateCode (F : fs_host) (self : EBTorchProcess)
  : list fs_event → promise nat * EBTorchProcess * list fs_event :=
  λ log,
    match writeGeneratedFiles F self (0, log) with
    | (Resolved _, self1, w1) =>
        match writeLibraryFiles F self1 w1 with
        | (Resolved _, w2) =>
            match writeElectricBrainLibrary F self1 w2 with
            | (Resolved _, (totalFiles, log3)) =>
                (Resolved totalFiles, self1, log3)
            | (Rejected err, (_, log3)) => (Rejected err, self1, log3)
            | (Pending, (_, log3)) => (Pending, self1, log3)
            end
        | (Rejected err, (_, log2)) => (Rejected err, self1, log2)
        | (Pending, (_, log2)) => (Pending, self1, log2)
        end
    | (Rejected err, self1, (_, log1)) => (Rejected err, self1, log1)
    | (Pending, self1, (_, log1)) => (Pending, self1, log1)
    end.

(** The names of the files written, in order. *)
Fixpoint written (l : list fs_event) : list string :=
  match l with
  | [] => []
  | FsWriteFile _ name _ :: l' => name :: written l'
  | _ :: l' => written l'
  end.

(** The names of the library files read, in order. *)
Fixpoint read_from_lib (l : list fs_event) : list string :=
  match l with
  | [] => []
  | FsReadLib name :: l' => name :: read_from_lib l'
  | _ :: l' => read_from_lib l'
  end.

(** A file system on which everything succeeds: two generated files, two
    library files. *)
Definition sound : fs_host :=
  {| temp_mkdir := λ _ prefix, inr ("/tmp/" +:+ prefix);
     generateFiles := λ _, inr [FileRecord "TrainingScript.lua" "-- training";
                                FileRecord "Network.lua" "-- network"];
     writeFile := λ _ _ _ _, None;
     lib_readdirSync := λ _, ["json.lua"; "underscore.lua"];
     lib_readFile := λ _ name, inr ("-- " +:+ name) |}.

(** The disk is full when the second generated file is written. *)
Definition disk_full_on_network : fs_host :=
  {| temp_mkdir := temp_mkdir sound;
     generateFiles := generateFiles sound;
     writeFile := λ _ _ name _,
       if decide (name = "Network.lua") then Some "ENOSPC" else None;
     lib_readdirSync := lib_readdirSync sound;
     lib_readFile := lib_readFile sound |}.

(** A library file cannot be read. *)
Definition library_unreadable : fs_host :=
  {| temp_mkdir := temp_mkdir sound;
     generateFiles := generateFiles sound;
     writeFile := writeFile sound;
     lib_readdirSync := lib_readdirSync sound;
     lib_readFile := λ _ name,
       if decide (name = "underscore.lua") then inl "EACCES"
       else inr ("-- " +:+ name) |}.

(** The code generator throws. *)
Definition generator_throws : fs_host :=
  {| temp_mkdir := temp_mkdir sound;
     generateFiles := λ _, inl "Unknown component";
     writeFile := writeFile sound;
     lib_readdirSync := lib_readdirSync sound;
     lib_readFile := lib_readFile sound |}.

End CodeGeneration.

(** *** Statistics, checkpoints and prepared batches *)

Module Persistence.

(** The requests of [getInternalStatistics], [getTorchModelFileStream],
    [loadModelFile] and [prepareBatch]. *)
Inductive request :=
  | ReqStats
  | ReqSave
  | ReqLoad
  | ReqPrepareBatch (ids : list string) (fileName : string).

Definition req_type (r : request) : string :=
  match r with
  | ReqStats => "stats"
  | ReqSave => "save"
  | ReqLoad => "load"
  | ReqPrepareBatch _ _ => "prepareBatch"
  end.

(** A record of a worker's output stream: its [type] field when it has one
    and the [stats] field a ["stats"] reply carries. *)
Record reply := Reply { r_type : option string; stats : string }.

Inductive reply_item :=
  | Received (r : reply)
  | Lost (e : error).

(** Modelled from the spec: [writeAndWaitForMatchingOutput] of the class
    [EBStdioJSONStreamProcess], which is not among the sources, as
    [awaitMatchingOutput] above: the first record of the expected type
    resolves the exchange, a failure of the stream before it rejects it. *)
Fixpoint awaitMatchingReply (expected : string) (s : list reply_item)
  : promise reply :=
  match s with
  | [] => Pending
  | Received r :: s' =>
      if decide (r_type r = Some expected) then Resolved r
      else awaitMatchingReply expected s'
  | Lost e :: _ => Rejected e
  end.

(** [PWrite] is one [writeAndWaitForMatchingOutput], [PCreateReadStream]
    is [fs.createReadStream(path.join(dir, name))]. *)
Inductive p_event :=
  | PWrite (p : process) (r : request) (expected : string)
  | PCreateReadStream (dir name : string).

Record p_host := PHost {
  p_worker : list p_event → process → request → list reply_item
}.

(** The stream [getTorchModelFileStream] resolves with. *)
Record read_stream := ReadStream { stream_dir : string; stream_name : string }.

Definition exchange (H : p_host) (p : process) (r : request)
    (expected : string) : action (list p_event) reply :=
  λ log, (awaitMatchingReply expected (p_worker H log p r),
          log ++ [PWrite p r expected]).

(** [getInternalStatistics()].  The exchange is started inside
    [Promise.fromCallback]: with an empty pool the [TypeError] rejects the
    promise. *)
Definition getInternalStatistics (H : p_host) (self : EBTorchProcess)
  : action (list p_event) string :=
  λ log,
    match processes self !! 0 with
    | None => (Rejected "TypeError: Cannot read property of undefined", log)
    | Some p =>
        match exchange H p ReqStats "stats" log with
        | (Resolved response, log') => (Resolved (stats response), log')
        | (Rejected err, log') => (Rejected err, log')
        | (Pending, log') => (Pending, log')
        end
    end.

(** [getTorchModelFileStream()].  The stream is created in the callback of
    the ["saved"] reply; with no script folder [path.join] throws there and
    the callback of [Promise.fromCallback] is never called. *)
Definition getTorchModelFileStream (H : p_host) (self : EBTorchProcess)
  : action (list p_event) read_stream :=
  λ log,
    match processes self !! 0 with
    | None => (Rejected "TypeError: Cannot read property of undefined", log)
    | Some p =>
        match exchange H p ReqSave "saved" log with
        | (Resolved _, log') =>
            match scriptFolder self with
            | Some folder =>
                (Resolved (ReadStream folder "model.t7"),
                 log' ++ [PCreateReadStream folder "model.t7"])
            | None => (Pending, log')
            end
        | (Rejected err, log') => (Rejected err, log')
        | (Pending, log') => (Pending, log')
        end
    end.

(** [loadModelFile()]: [Promise.each] over the pool. *)
Definition loadModelFile (H : p_host) (self : EBTorchProcess)
  : action (list p_event) (list process) :=
  λ log,
    match each_in (processes self) (λ p, exchange H p ReqLoad "loaded") log
    with
    | (Resolved _, log') => (Resolved (processes self), log')
    | (Rejected err, log') => (Rejected err, log')
    | (Pending, log') => (Pending, log')
    end.

(** [prepareBatch(ids, fileName)]: the exchange with [processes[0]] is
    returned as it is; with an empty pool the method throws: [inl]. *)
Definition prepareBatch (H : p_host) (ids : list string) (fileName : string)
    (self : EBTorchProcess)
  : list p_event → error + (promise reply * list p_event) :=
  λ log,
    match processes self !! 0 with
    | None => inl "TypeError: Cannot read property of undefined"
    | Some p =>
        inr (exchange H p (ReqPrepareBatch ids fileName) "batchPrepared" log)
    end.

(** The reply type each request waits for. *)
Definition reply_type (r : request) : string :=
  match r with
  | ReqStats => "stats"
  | ReqSave => "saved"
  | ReqLoad => "loaded"
  | ReqPrepareBatch _ _ => "batchPrepared"
  end.

(** Workers that log a line, then answer as expected. *)
Definition obedient : p_host :=
  {| p_worker := λ _ _ r,
       [Received (Reply (Some "log") "");
        Received (Reply (Some (reply_type r)) "{iterations: 12}")] |}.

(** The second worker cannot load the checkpoint. *)
Definition second_cannot_load : p_host :=
  {| p_worker := λ l p r,
       match r with
       | ReqLoad =>
           if decide (pid p = 1) then [Lost "model.t7 not found"]
           else p_worker obedient l p r
       | _ => p_worker obedient l p r
       end |}.

End Persistence.

(** Number of renderer runs among some events. *)
Definition renders (l : list event) : nat :=
  length (List.filter (λ ev, match ev with EvExec _ _ _ => true | _ => false end)
            l).

(** A worker of the pool never answers an evaluation. *)
Definition silent_second_worker : host :=
  {| spawn := spawn Scenario.calm;
     arrival := arrival Scenario.calm;
     worker := λ l p m,
       match m with
       | MsgEvaluate _ =>
           if decide (pid p = 1)
           then [Data {| o_type := Some "log"; objects := [] |}]
           else Scenario.obedient l p m
       | _ => Scenario.obedient l p m
       end;
     readdir := readdir Scenario.calm;
     exec_dot := exec_dot Scenario.calm;
     base64 := base64 Scenario.calm |}.

(** * Properties *)

(** ** The exchange primitive *)

Lemma awaitMatchingOutput_resolved expected s o :
  awaitMatchingOutput expected s = Resolved o →
  o_type o = Some expected ∧ Data o ∈ s.
Proof.
  induction s as [|[o'|e] s IH]; simpl; [done| |done].
  case_decide as Hty.
  - intros [= ->]. split; [done|]. apply list_elem_of_here.
  - intros H. destruct (IH H) as [? ?]. split; [done|].
    by apply list_elem_of_further.
Qed.

(** ** Sequential broadcasts *)

Lemma writes_app ps qs m expected :
  writes (ps ++ qs) m expected = writes ps m expected ++ writes qs m expected.
Proof. unfold writes. apply map_app. Qed.

Lemma exchange_at_head E log p ps m expected :
  exchange_at E log (p :: ps) m expected 0
  = awaitMatchingOutput expected (worker E log p m).
Proof. unfold exchange_at. simpl. by rewrite app_nil_r. Qed.

Lemma exchange_at_tail E log p ps m expected k :
  exchange_at E log (p :: ps) m expected (S k)
  = exchange_at E (log ++ [EvWrite p m expected]) ps m expected k.
Proof.
  unfold exchange_at. simpl. destruct (ps !! k); [|done].
  by rewrite <- app_assoc.
Qed.

Lemma each_loop_exchanges E m expected ps :
  ∀ log,
    let '(result, log') :=
      each_loop ps (λ p, writeAndWaitForMatchingOutput E p m expected) log in
    sequential_exchanges E log ps m expected
      (match result with
       | Resolved _ => Resolved ps
       | Rejected e => Rejected e
       | Pending => Pending
       end) log'.
Proof.
  induction ps as [|p ps IH]; intros log; simpl.
  - split_and!; [done|by rewrite app_nil_r|]. intros k Hk. lia.
  - destruct (awaitMatchingOutput expected (worker E log p m)) as [o|e|] eqn:Hp.
    + specialize (IH (log ++ [EvWrite p m expected])).
      destruct (each_loop ps _ _) as [[u|e|] log'] eqn:Hrest; simpl in *.
      * destruct IH as (_ & -> & Hall). split_and!; [done| |].
        { by rewrite <- app_assoc. }
        intros [|k] Hk.
        -- exists o. rewrite exchange_at_head. split; [done|].
           by apply awaitMatchingOutput_resolved in Hp as [? _].
        -- rewrite exchange_at_tail. apply Hall. lia.
      * destruct IH as (k & Hk & Hfail & Hbefore & ->).
        exists (S k). split_and!; [lia| |intros [|j] Hj|].
        -- by rewrite exchange_at_tail.
        -- exists o. by rewrite exchange_at_head.
        -- rewrite exchange_at_tail. apply Hbefore. lia.
        -- by rewrite <- app_assoc.
      * destruct IH as (k & Hk & Hfail & Hbefore & ->).
        exists (S k). split_and!; [lia| |intros [|j] Hj|].
        -- by rewrite exchange_at_tail.
        -- exists o. by rewrite exchange_at_head.
        -- rewrite exchange_at_tail. apply Hbefore. lia.
        -- by rewrite <- app_assoc.
    + exists 0. split_and!; [simpl; lia| |intros j Hj; lia|].
      * by rewrite exchange_at_head.
      * done.
    + exists 0. split_and!; [simpl; lia| |intros j Hj; lia|].
      * by rewrite exchange_at_head.
      * done.
Qed.

Lemma broadcast_exchanges E ps m expected log :
  sequential_exchanges E log ps m expected
    (broadcast E ps m expected log).1 (broadcast E ps m expected log).2.
Proof.
  unfold broadcast, Promise_each.
  pose proof (each_loop_exchanges E m expected ps log) as H.
  destruct (each_loop ps _ log) as [[u|e|] log']; exact H.
Qed.

Lemma broadcast_all_reply E ps m expected log :
  (∀ k, k < length ps →
     ∃ o, exchange_at E log ps m expected k = Resolved o) →
  broadcast E ps m expected log = (Resolved ps, log ++ writes ps m expected).
Proof.
  intros Hall. pose proof (broadcast_exchanges E ps m expected log) as H.
  destruct (broadcast E ps m expected log) as [[value|e|] log']; simpl in H.
  - destruct H as (-> & -> & _). done.
  - destruct H as (k & Hk & Hfail & _).
    destruct (Hall k Hk) as [o Ho]. congruence.
  - destruct H as (k & Hk & Hfail & _).
    destruct (Hall k Hk) as [o Ho]. congruence.
Qed.

Lemma broadcast_first_failure E ps m expected log k e :
  exchange_at E log ps m expected k = Rejected e →
  (∀ j, j < k → ∃ o, exchange_at E log ps m expected j = Resolved o) →
  (broadcast E ps m expected log).1 = Rejected e.
Proof.
  intros Hk Hbefore. pose proof (broadcast_exchanges E ps m expected log) as H.
  destruct (broadcast E ps m expected log) as [[value|e'|] log']; simpl in *.
  - destruct H as (_ & _ & Hall).
    assert (k < length ps) as Hlt.
    { apply lookup_lt_is_Some. unfold exchange_at in Hk.
      destruct (ps !! k); [eauto|done]. }
    destruct (Hall k Hlt) as (o & Ho & _). congruence.
  - destruct H as (k' & Hk' & Hfail & Hbefore' & _).
    destruct (Nat.lt_trichotomy k k') as [Hlt|[->|Hlt]].
    + destruct (Hbefore' k Hlt) as [o Ho]. congruence.
    + congruence.
    + destruct (Hbefore k' Hlt) as [o Ho]. congruence.
  - destruct H as (k' & Hk' & Hfail & Hbefore' & _).
    destruct (Nat.lt_trichotomy k k') as [Hlt|[->|Hlt]].
    + destruct (Hbefore' k Hlt) as [o Ho]. congruence.
    + congruence.
    + destruct (Hbefore k' Hlt) as [o Ho]. congruence.
Qed.

(** ** The residency record as a JavaScript array *)

Lemma indexOf_from_absent l x i : x ∉ l → JS.indexOf_from l x i = (-1)%Z.
Proof.
  revert i. induction l as [|y l IH]; intros i Hx; simpl; [done|].
  apply not_elem_of_cons in Hx as [Hne Hx].
  case_decide; [congruence|]. by apply IH.
Qed.

Lemma indexOf_from_fresh_last l x i :
  x ∉ l → JS.indexOf_from (l ++ [x]) x i = (i + Z.of_nat (length l))%Z.
Proof.
  revert i. induction l as [|y l IH]; intros i Hx; simpl.
  - case_decide; [lia|done].
  - apply not_elem_of_cons in Hx as [Hne Hx].
    case_decide; [congruence|]. rewrite IH by done. lia.
Qed.

Lemma splice_last {A} (l : list A) x :
  JS.splice (l ++ [x]) (Z.of_nat (length l)) 1 = l.
Proof.
  unfold JS.splice. rewrite length_app. simpl.
  destruct (Z.ltb_spec (Z.of_nat (length l)) 0) as [Hneg|_]; [lia|].
  replace (Z.to_nat (Z.min (Z.of_nat (length l)) (Z.of_nat (length l + 1))))
    with (length l) by lia.
  match goal with
  | |- _ ++ drop ?n _ = _ => replace n with (length l + 1) by lia
  end.
  rewrite take_app_length.
  rewrite drop_ge by (rewrite length_app; simpl; lia).
  apply app_nil_r.
Qed.

Lemma splice_minus_one_snoc {A} (l : list A) x :
  JS.splice (l ++ [x]) (-1) 1 = l.
Proof.
  unfold JS.splice. rewrite length_app. simpl.
  replace (Z.to_nat (Z.max (Z.of_nat (length l + 1) + -1) 0))
    with (length l) by lia.
  match goal with
  | |- _ ++ drop ?n _ = _ => replace n with (length l + 1) by lia
  end.
  rewrite take_app_length.
  rewrite drop_ge by (rewrite length_app; simpl; lia).
  apply app_nil_r.
Qed.

Lemma splice_minus_one_removelast {A} (l : list A) :
  JS.splice l (-1) 1 = removelast l.
Proof.
  destruct (decide (l = [])) as [->|Hne]; [done|].
  destruct (exists_last Hne) as (older & x & ->).
  rewrite splice_minus_one_snoc. by rewrite removelast_last.
Qed.

(** ** loadObject, removeObject and reset *)

(** C3: [loadObject(id, input, output)] writes the store message to the
    workers one at a time, in index order, each after the reply of the one
    before; its promise resolves only when every worker has replied with
    type ["stored"], and only then is [id] appended to [allLoadedEntries];
    when the exchange with a worker fails the promise rejects with that
    error, no later worker is written to, and [allLoadedEntries] is left as
    it was.  When every worker replies the promise does resolve. *)
Theorem loadObject_all_or_nothing E id input output self log :
  let m := MsgStore id input output in
  let ps := processes self in
  let '(result, self', log') := loadObject E id input output self log in
  msg_type m = "store"
  ∧ sequential_exchanges E log ps m "stored" result log'
  ∧ allLoadedEntries self'
    = match result with
      | Resolved _ => allLoadedEntries self ++ [id]
      | _ => allLoadedEntries self
      end
  ∧ ((∀ k, k < length ps →
        ∃ o, exchange_at E log ps m "stored" k = Resolved o) →
     result = Resolved ps)
  ∧ (∀ k e,
       exchange_at E log ps m "stored" k = Rejected e →
       (∀ j, j < k →
          ∃ o, exchange_at E log ps m "stored" j = Resolved o) →
       result = Rejected e ∧ allLoadedEntries self' = allLoadedEntries self).
Proof.
  intros m ps. unfold loadObject. fold m. fold ps.
  pose proof (broadcast_exchanges E ps m "stored" log) as Hseq.
  pose proof (broadcast_all_reply E ps m "stored" log) as Hall.
  pose proof (broadcast_first_failure E ps m "stored" log) as Hfail.
  destruct (broadcast E ps m "stored" log) as [[value|e|] log'];
    cbn [fst snd] in *;
    (split; [done|]); (split; [exact Hseq|]); (split; [done|]); split.
  - intros H. by injection (Hall H) as ->.
  - intros k e Hk Hbefore. by specialize (Hfail k e Hk Hbefore).
  - intros H. by specialize (Hall H).
  - intros k e' Hk Hbefore. by specialize (Hfail k e' Hk Hbefore).
  - intros H. by specialize (Hall H).
  - intros k e' Hk Hbefore. by specialize (Hfail k e' Hk Hbefore).
Qed.

Example loadObject_acknowledged :
  loadObject Scenario.calm "a" "in" "out" (Scenario.pool 2) []
  = (Resolved [Process 0; Process 1],
     set_allLoadedEntries (Scenario.pool 2) ["a"],
     [EvWrite (Process 0) (MsgStore "a" "in" "out") "stored";
      EvWrite (Process 1) (MsgStore "a" "in" "out") "stored"]).
Proof. reflexivity. Qed.

(** The third worker is never written to, and nothing is recorded. *)
Example loadObject_second_worker_breaks :
  loadObject Scenario.second_worker_breaks "a" "in" "out" (Scenario.pool 3) []
  = (Rejected "write EPIPE",
     Scenario.pool 3,
     [EvWrite (Process 0) (MsgStore "a" "in" "out") "stored";
      EvWrite (Process 1) (MsgStore "a" "in" "out") "stored"]).
Proof. reflexivity. Qed.

(** C5: for an [id] that is not in [allLoadedEntries], a [loadObject] that
    resolves followed at once by a [removeObject] of the same [id] that
    resolves leaves [allLoadedEntries] (and the whole of [self]) as it was
    before the pair, and the log shows, for every worker in order, the store
    exchange for [id], then for every worker the forget exchange for
    [id]. *)
Theorem load_then_remove_round_trip E id input output self log
    r1 self1 log1 r2 self2 log2 :
  id ∉ allLoadedEntries self →
  loadObject E id input output self log = (Resolved r1, self1, log1) →
  removeObject E id self1 log1 = (Resolved r2, self2, log2) →
  allLoadedEntries self2 = allLoadedEntries self
  ∧ self2 = self
  ∧ (allLoadedEntries self = [] → allLoadedEntries self2 = [])
  ∧ log2 = log ++ writes (processes self) (MsgStore id input output) "stored"
               ++ writes (processes self) (MsgForget id) "forgotten".
Proof.
  intros Hfresh Hload Hremove. unfold loadObject in Hload.
  pose proof (broadcast_exchanges E (processes self)
                (MsgStore id input output) "stored" log) as Hs1.
  destruct (broadcast E (processes self) _ "stored" log)
    as [[v1|e1|] l1]; simplify_eq. simpl in Hs1.
  destruct Hs1 as (_ & -> & _).
  unfold removeObject in Hremove. simpl in Hremove.
  pose proof (broadcast_exchanges E (processes self) (MsgForget id)
                "forgotten" (log ++ writes (processes self)
                                     (MsgStore id input output) "stored")) as Hs2.
  destruct (broadcast E (processes self) (MsgForget id) "forgotten" _)
    as [[v2|e2|] l2]; simplify_eq. simpl in Hs2.
  destruct Hs2 as (_ & -> & _).
  unfold JS.indexOf. rewrite indexOf_from_fresh_last by done.
  rewrite Z.add_0_l, splice_last.
  split_and!; [done| |done|by rewrite <- app_assoc].
  by destruct self.
Qed.

Lemma load_then_remove_round_trip_witness :
  allLoadedEntries (Scenario.pool 2) = allLoadedEntries (Scenario.pool 2)
  ∧ Scenario.pool 2 = Scenario.pool 2
  ∧ (allLoadedEntries (Scenario.pool 2) = [] →
     allLoadedEntries (Scenario.pool 2) = [])
  ∧ [EvWrite (Process 0) (MsgStore "a" "in" "out") "stored";
     EvWrite (Process 1) (MsgStore "a" "in" "out") "stored";
     EvWrite (Process 0) (MsgForget "a") "forgotten";
     EvWrite (Process 1) (MsgForget "a") "forgotten"]
    = [] ++ writes (processes (Scenario.pool 2)) (MsgStore "a" "in" "out") "stored"
         ++ writes (processes (Scenario.pool 2)) (MsgForget "a") "forgotten".
Proof.
  eapply (load_then_remove_round_trip Scenario.calm "a" "in" "out"
            (Scenario.pool 2) []).
  - apply not_elem_of_nil.
  - reflexivity.
  - reflexivity.
Defined.

(** C10: for an [id] that is not in [allLoadedEntries], [indexOf] is -1 and
    a [removeObject(id)] that resolves splices at -1: the record loses its
    last, most recently appended identifier (and so differs from what it
    was) instead of being left unchanged. *)
Theorem removeObject_absent_id_drops_last E id self log r self' log' :
  id ∉ allLoadedEntries self →
  removeObject E id self log = (Resolved r, self', log') →
  JS.indexOf (allLoadedEntries self) id = (-1)%Z
  ∧ allLoadedEntries self' = removelast (allLoadedEntries self)
  ∧ ∀ older newest,
      allLoadedEntries self = older ++ [newest] →
      allLoadedEntries self' = older
      ∧ allLoadedEntries self' ≠ allLoadedEntries self.
Proof.
  intros Habsent Hremove. unfold removeObject in Hremove.
  destruct (broadcast E (processes self) (MsgForget id) "forgotten" log)
    as [[v|e|] l]; simplify_eq. simpl.
  assert (JS.indexOf (allLoadedEntries self) id = (-1)%Z) as Hidx
    by (by apply indexOf_from_absent).
  rewrite Hidx, splice_minus_one_removelast.
  split_and!; [done|done|]. intros older newest Heq. rewrite Heq.
  rewrite removelast_last. split; [done|]. intros Hsame.
  apply (f_equal length) in Hsame. rewrite length_app in Hsame.
  simpl in Hsame. lia.
Qed.

Lemma removeObject_absent_id_drops_last_witness :
  JS.indexOf ["a"; "b"] "z" = (-1)%Z
  ∧ ["a"] = removelast ["a"; "b"]
  ∧ ∀ older newest,
      ["a"; "b"] = older ++ [newest] →
      ["a"] = older ∧ ["a"] ≠ ["a"; "b"].
Proof.
  eapply (removeObject_absent_id_drops_last Scenario.calm "z"
            (set_allLoadedEntries (Scenario.pool 2) ["a"; "b"]) []
            _ (set_allLoadedEntries (Scenario.pool 2) ["a"])).
  - intros Hin. repeat (apply elem_of_cons in Hin as [Hin|Hin]; [done|]).
    by apply elem_of_nil in Hin.
  - reflexivity.
Defined.

(** C9: after any sequence of [loadObject] and [removeObject] operations,
    [reset()] writes the reset message (type ["reset"], awaiting
    ["resetCompleted"]) to the workers in order, to every one of them when
    each acknowledges, and leaves [self], hence [allLoadedEntries],
    unchanged: every identifier recorded before is recorded after. *)
Theorem reset_keeps_residency E ops self0 log0 :
  let '(self, log) := run_ops E ops self0 log0 in
  let '(result, self', log') := reset E self log in
  msg_type MsgReset = "reset"
  ∧ sequential_exchanges E log (processes self) MsgReset "resetCompleted"
      result log'
  ∧ ((∀ k, k < length (processes self) →
        ∃ o, exchange_at E log (processes self) MsgReset "resetCompleted" k
             = Resolved o) →
     result = Resolved (processes self)
     ∧ log' = log ++ writes (processes self) MsgReset "resetCompleted")
  ∧ self' = self
  ∧ allLoadedEntries self' = allLoadedEntries self
  ∧ ∀ id, id ∈ allLoadedEntries self → id ∈ allLoadedEntries self'.
Proof.
  destruct (run_ops E ops self0 log0) as [self log]. unfold reset.
  pose proof (broadcast_exchanges E (processes self) MsgReset
                "resetCompleted" log) as Hseq.
  pose proof (broadcast_all_reply E (processes self) MsgReset
                "resetCompleted" log) as Hall.
  destruct (broadcast E (processes self) MsgReset "resetCompleted" log)
    as [result log']. cbn [fst snd] in *.
  split; [done|]. split; [exact Hseq|]. split; [|done].
  intros H. specialize (Hall H). by simplify_eq.
Qed.

(** ** processBatch and executeTrainingIteration *)

(** C8: with a pool whose first process is [p0], [processBatch] and
    [executeTrainingIteration] each add exactly one event to the log: the
    write to [p0] of a message of type ["evaluateBatch"] awaiting
    ["evaluationCompleted"], respectively of type ["iteration"] awaiting
    ["iterationCompleted"]; no other process is written to, whatever the
    size of the pool. *)
Theorem batch_operations_first_worker_only E batchFilename self log p0 others :
  processes self = p0 :: others →
  (∃ fate,
     processBatch E batchFilename self log
     = inr (fate,
            log ++ [EvWrite p0 (MsgEvaluateBatch batchFilename)
                      "evaluationCompleted"]))
  ∧ (∃ fate,
       executeTrainingIteration E batchFilename self log
       = inr (fate,
              log ++ [EvWrite p0 (MsgIteration batchFilename)
                        "iterationCompleted"]))
  ∧ msg_type (MsgEvaluateBatch batchFilename) = "evaluateBatch"
  ∧ msg_type (MsgIteration batchFilename) = "iteration".
Proof.
  intros Hps.
  unfold processBatch, executeTrainingIteration, with_first_process.
  rewrite Hps. simpl. unfold writeAndWaitForMatchingOutput.
  split_and!; [|by eexists|done|done].
  destruct (awaitMatchingOutput _ _); by eexists.
Qed.

Lemma batch_operations_first_worker_only_witness :
  (∃ fate,
     processBatch Scenario.calm "batch.t7" (Scenario.pool 3) []
     = inr (fate,
            [] ++ [EvWrite (Process 0) (MsgEvaluateBatch "batch.t7")
                     "evaluationCompleted"]))
  ∧ (∃ fate,
       executeTrainingIteration Scenario.calm "batch.t7" (Scenario.pool 3) []
       = inr (fate,
              [] ++ [EvWrite (Process 0) (MsgIteration "batch.t7")
                       "iterationCompleted"]))
  ∧ msg_type (MsgEvaluateBatch "batch.t7") = "evaluateBatch"
  ∧ msg_type (MsgIteration "batch.t7") = "iteration".
Proof.
  apply (batch_operations_first_worker_only Scenario.calm "batch.t7"
           (Scenario.pool 3) [] (Process 0) [Process 1; Process 2]).
  reflexivity.
Defined.

(** ** Round-robin distribution *)

Lemma lookup_map {A B} (f : A → B) (l : list A) i :
  map f l !! i = f <$> (l !! i).
Proof. revert i. induction l as [|x l IH]; intros [|i]; simpl; auto. Qed.

Lemma distribute_snoc ids :
  ∀ index bs x,
    bs ≠ [] →
    distribute (ids ++ [x]) index bs
    = (λ bs', alter (push_sample x) ((index + length ids) mod length bs) bs')
        <$> distribute ids index bs.
Proof.
  induction ids as [|y ids IH]; intros index bs x Hne; simpl.
  - destruct bs as [|b bs]; [done|]. simpl length.
    by rewrite Nat.add_0_r.
  - destruct bs as [|b bs]; [done|]. simpl length.
    rewrite IH.
    + rewrite length_alter. simpl length.
      by replace (S index + length ids) with (index + S (length ids)) by lia.
    + intros Hnil. apply (f_equal length) in Hnil.
      rewrite length_alter in Hnil. done.
Qed.

Lemma round_robin (ps : list process) (ids : list string) :
  ps ≠ [] →
  ∃ bs,
    distribute ids 0 (map (λ p, {| samples := []; process_of := p |}) ps)
    = Some bs
    ∧ length bs = length ps
    ∧ ∀ w p, ps !! w = Some p →
        ∃ b, bs !! w = Some b ∧ process_of b = p
             ∧ ∀ k, samples b !! k = ids !! (k * length ps + w).
Proof.
  intros Hne.
  assert (0 < length ps) as HN by (destruct ps; [done|simpl; lia]).
  set (N := length ps) in *.
  induction ids as [|x ids IH] using rev_ind.
  - eexists. split; [reflexivity|]. split; [by rewrite length_map|].
    intros w p Hw. eexists. rewrite lookup_map, Hw. simpl.
    split; [done|]. split; [done|]. intros k. by rewrite !lookup_nil.
  - destruct IH as (bs & Hbs & Hlen & Hinv).
    rewrite distribute_snoc, Hbs; simpl.
    2:{ intros Hnil. apply (f_equal length) in Hnil.
        rewrite length_map in Hnil. destruct ps; done. }
    rewrite length_map. fold N. set (n := length ids).
    eexists. split; [reflexivity|]. split; [by rewrite length_alter|].
    intros w p Hw. destruct (Hinv w p Hw) as (b & Hb & Hp & Hsamples).
    assert (w < N) as HwN by (by apply lookup_lt_Some in Hw).
    pose proof (Nat.div_mod_eq n N) as Hdm.
    pose proof (Nat.mod_upper_bound n N ltac:(lia)) as Hmod.
    destruct (decide (n mod N = w)) as [Heq|Hneq].
    + subst w. exists (push_sample x b).
      rewrite list_lookup_alter_eq, Hb. split; [done|]. split; [done|].
      assert (length (samples b) = n / N) as HL.
      { pose proof (Hsamples (length (samples b))) as Hout.
        rewrite (lookup_ge_None_2 (samples b)) in Hout by lia.
        symmetry in Hout. apply lookup_ge_None_1 in Hout. fold n in Hout.
        destruct (decide (length (samples b) ≤ n / N)) as [Hle|Hgt]; [nia|].
        pose proof (Hsamples (n / N)) as Hin.
        rewrite (lookup_ge_None_2 ids) in Hin by (fold n; nia).
        apply lookup_ge_None_1 in Hin. lia. }
      intros k. simpl.
      destruct (Nat.lt_trichotomy k (n / N)) as [Hlt|[->|Hgt]].
      * rewrite lookup_app_l by lia. rewrite Hsamples.
        rewrite lookup_app_l by (fold n; nia). done.
      * rewrite <- HL at 1. rewrite list_lookup_middle by done.
        replace (n / N * N + n mod N) with n by nia.
        by rewrite list_lookup_middle.
      * rewrite !lookup_ge_None_2; [done| |].
        -- rewrite length_app. simpl. fold n. nia.
        -- rewrite length_app. simpl. lia.
    + exists b. rewrite list_lookup_alter_ne by done.
      split; [done|]. split; [done|]. intros k. rewrite Hsamples.
      destruct (decide (k * N + w < n)) as [Hlt|Hge].
      * by rewrite lookup_app_l.
      * rewrite !lookup_ge_None_2; [done| |fold n; lia].
        rewrite length_app. simpl. fold n.
        assert (k * N + w ≠ n); [|lia].
        intros Heq. apply Hneq. rewrite <- Heq.
        rewrite Nat.add_comm, Nat.Div0.mod_add. by apply Nat.mod_small.
Qed.

(** ** Concurrent maps *)

Lemma async_collect_resolved {B} (fates : list (promise B)) rs :
  async_collect fates = Resolved rs → fates = map Resolved rs.
Proof.
  revert rs. induction fates as [|[b|e|] fates IH]; intros rs; simpl.
  - by intros [= <-].
  - destruct (async_collect fates) as [bs|e|]; [|done|done].
    intros [= <-]. simpl. by rewrite (IH bs).
  - done.
  - by destruct (async_collect fates).
Qed.

Lemma async_collect_all_resolved {B} (fates : list (promise B)) :
  Forall (λ fate, ∃ b, fate = Resolved b) fates →
  ∃ rs, async_collect fates = Resolved rs.
Proof.
  induction 1 as [|fate fates [b ->] _ [rs IH]]; simpl; [by eexists|].
  rewrite IH. by eexists.
Qed.

Lemma async_collect_rejected {B} (fates : list (promise B)) e :
  Rejected e ∈ fates → ∃ e', async_collect fates = Rejected e'.
Proof.
  induction fates as [|[b|e0|] fates IH]; intros Hin.
  - by apply elem_of_nil in Hin.
  - apply elem_of_cons in Hin as [?|Hin]; [done|].
    destruct (IH Hin) as [e' He']. simpl. rewrite He'. by eexists.
  - simpl. by eexists.
  - apply elem_of_cons in Hin as [?|Hin]; [done|].
    destruct (IH Hin) as [e' He']. simpl. rewrite He'. by eexists.
Qed.

(** Each fate is the fate of the iteratee on its item, at some log. *)
Lemma launch_all_fates {A B} (f : A → io B) items :
  ∀ log, Forall2 (λ x fate, ∃ l, (f x l).1 = fate)
           items (launch_all items f log).1.
Proof.
  induction items as [|x items IH]; intros log; simpl; [constructor|].
  destruct (f x log) as [fate log1] eqn:Hx.
  specialize (IH log1). destruct (launch_all items f log1) as [fates log2].
  simpl in *. constructor; [|done]. exists log. by rewrite Hx.
Qed.

Lemma async_map_resolved {A B} (f : A → io B) items log rs log' :
  async_map items f log = (Resolved rs, log') →
  Forall2 (λ x r, ∃ l, (f x l).1 = Resolved r) items rs.
Proof.
  unfold async_map. intros H.
  pose proof (launch_all_fates f items log) as Hf.
  destruct (launch_all items f log) as [fates log2]. simplify_eq. simpl in Hf.
  match goal with H : async_collect _ = _ |- _ =>
    apply async_collect_resolved in H as -> end.
  clear -Hf. revert items Hf.
  induction rs as [|r rs IH]; intros items Hf; simpl in Hf.
  - apply Forall2_nil_inv_r in Hf as ->. constructor.
  - apply Forall2_cons_inv_r in Hf as (x & items' & Hx & Hrest & ->).
    constructor; [done|]. by apply IH.
Qed.

Lemma async_map_all_resolve {A B} (f : A → io B) items log :
  (∀ x l, x ∈ items → ∃ r, (f x l).1 = Resolved r) →
  ∃ rs, (async_map items f log).1 = Resolved rs.
Proof.
  intros Hall. unfold async_map.
  pose proof (launch_all_fates f items log) as Hf.
  destruct (launch_all items f log) as [fates log2]. simpl in *.
  apply async_collect_all_resolved.
  clear -Hall Hf. induction Hf as [|x fate items fates [l Hl] _ IH];
    constructor.
  - destruct (Hall x l) as [r Hr]; [apply list_elem_of_here|].
    exists r. congruence.
  - apply IH. intros y l' Hy. apply Hall. by apply list_elem_of_further.
Qed.

Lemma async_map_one_rejects {A B} (f : A → io B) items log x :
  x ∈ items →
  (∀ l, ∃ e, (f x l).1 = Rejected e) →
  ∃ e, (async_map items f log).1 = Rejected e.
Proof.
  intros Hx Hrej. unfold async_map.
  pose proof (launch_all_fates f items log) as Hf.
  destruct (launch_all items f log) as [fates log2]. simpl in *.
  assert (∃ e, Rejected e ∈ fates) as [e He].
  { clear -Hx Hrej Hf. induction Hf as [|y fate items fates [l Hl] _ IH].
    - by apply elem_of_nil in Hx.
    - apply elem_of_cons in Hx as [->|Hx].
      + destruct (Hrej l) as [e He]. exists e.
        rewrite <- Hl, He. apply list_elem_of_here.
      + destruct (IH Hx) as [e He]. exists e. by apply list_elem_of_further. }
  by apply async_collect_rejected in He.
Qed.

(** The writes of [processObjects]: one per bucket that is not empty. *)
Lemma launch_all_evaluate_log E bs :
  ∀ log,
    (launch_all bs (evaluate_batch E) log).2
    = log ++ map evaluate_write (filter (λ b, samples b ≠ []) bs).
Proof.
  induction bs as [|b bs IH]; intros log; simpl; [by rewrite app_nil_r|].
  unfold evaluate_batch at 1. rewrite filter_cons.
  destruct (decide (length (samples b) = 0)) as [Hzero|Hpos].
  - apply nil_length_inv in Hzero.
    destruct (decide (samples b ≠ [])) as [?|_]; [done|].
    specialize (IH log). destruct (launch_all bs _ log). done.
  - destruct (decide (samples b ≠ [])) as [_|Hnil].
    + unfold writeAndWaitForMatchingOutput.
      specialize (IH (log ++ [evaluate_write b])).
      unfold evaluate_write at 1 in IH.
      destruct (launch_all bs _ _). simpl in *. rewrite IH.
      by rewrite <- app_assoc.
    + exfalso. apply Hnil. intros Hs. by rewrite Hs in Hpos.
Qed.

Lemma elem_of_map_seq {B} (g : nat → B) N y :
  y ∈ map g (seq 0 N) ↔ ∃ n, n < N ∧ g n = y.
Proof.
  rewrite list_elem_of_In, in_map_iff. split.
  - intros (n & Hn & Hin). apply in_seq in Hin. exists n. split; [lia|done].
  - intros (n & Hn & Hg). exists n. split; [done|]. apply in_seq. lia.
Qed.

(** ** Merging the replies *)

Lemma elem_of_concat_objects results o :
  o ∈ concat (map objects results) ↔ ∃ r, r ∈ results ∧ o ∈ objects r.
Proof.
  induction results as [|r results IH]; simpl.
  - split; [by intros ?%elem_of_nil|]. by intros (? & ?%elem_of_nil & _).
  - rewrite elem_of_app, IH. split.
    + intros [Ho|(r' & Hr' & Ho)].
      * exists r. split; [apply list_elem_of_here|done].
      * exists r'. split; [by apply list_elem_of_further|done].
    + intros (r' & [->|Hr']%elem_of_cons & Ho); [by left|].
      right. by exists r'.
Qed.

Lemma merge_results_flat results :
  merge_results results
  = fold_left (λ acc object, JS.assign (id object) object acc)
      (returned results) JS.empty.
Proof.
  unfold merge_results, returned. generalize (@JS.empty object).
  induction results as [|r results IH]; intros acc; simpl; [done|].
  by rewrite fold_left_app, IH.
Qed.

(** A later object replaces an earlier one of the same id, as an own
    property or, under ["__proto__"], as the rebound prototype. *)
Lemma fold_assign (l : list object) :
  ∀ (acc : JS.plain object),
    let a := fold_left (λ acc object, JS.assign (id object) object acc) l acc
    in
    (∀ x, x ≠ "__proto__" →
       JS.own a !! x
       = match last (filter (λ o, id o = x) l) with
         | Some o => Some o
         | None => JS.own acc !! x
         end)
    ∧ JS.rebound a
      = match last (filter (λ o, id o = "__proto__") l) with
        | Some o => Some o
        | None => JS.rebound acc
        end.
Proof.
  induction l as [|o l IH]; intros acc; [by split|]. cbn [fold_left].
  destruct (IH (JS.assign (id o) o acc)) as [IHown IHproto]. clear IH. split.
  - intros x Hx. rewrite (IHown x Hx), filter_cons. clear IHown IHproto.
    destruct (decide (id o = x)) as [Hid|Hid].
    + rewrite last_cons. destruct (last (filter _ l)); [done|].
      unfold JS.assign. rewrite decide_False by congruence. simpl.
      by rewrite <- Hid, lookup_insert_eq.
    + destruct (last (filter _ l)); [done|].
      unfold JS.assign. destruct (decide (id o = "__proto__")); simpl; [done|].
      by rewrite lookup_insert_ne.
  - rewrite IHproto, filter_cons. clear IHown IHproto.
    destruct (decide (id o = "__proto__")) as [Hid|Hid].
    + rewrite last_cons. destruct (last (filter _ l)); [done|].
      unfold JS.assign. by rewrite decide_True.
    + destruct (last (filter _ l)); [done|].
      unfold JS.assign. by rewrite decide_False.
Qed.

(** What [allResults[x]] is, for any [x]. *)
Lemma get_merge_results results x :
  JS.get (merge_results results) x
  = match last (filter (λ o, id o = x) (returned results)) with
    | Some o => JS.Stored o
    | None =>
        match last (filter (λ o, id o = "__proto__") (returned results)) with
        | Some _ => JS.Rebound x
        | None =>
            if decide (x ∈ JS.Object_prototype) then JS.Inherited x
            else JS.Undefined
        end
    end.
Proof.
  rewrite merge_results_flat.
  destruct (fold_assign (returned results) JS.empty) as [Hown Hproto].
  unfold JS.get. destruct (decide (x = "__proto__")) as [->|Hx].
  - rewrite Hproto. simpl. by destruct (last _).
  - rewrite (Hown x Hx), Hproto. simpl. rewrite lookup_empty.
    destruct (last (filter (λ o, id o = x) _)); [done|].
    by destruct (last (filter _ _)).
Qed.

Lemma last_filter_id (l : list object) x o :
  last (filter (λ o, id o = x) l) = Some o → id o = x ∧ o ∈ l.
Proof.
  intros Ho. apply last_Some_elem_of in Ho.
  by apply list_elem_of_filter in Ho.
Qed.


(** ** processObjects *)

Lemma processObjects_log E ids self log batches :
  processBatches self ids = Some batches →
  (processObjects E ids self log).2
  = log ++ map evaluate_write (filter (λ b, samples b ≠ []) batches).
Proof.
  intros Hb. unfold processObjects. rewrite Hb. unfold async_map.
  pose proof (launch_all_evaluate_log E batches log) as Hlog.
  destruct (launch_all batches (evaluate_batch E) log) as [fates log'].
  simpl in Hlog. subst log'. by destruct (async_collect fates).
Qed.










(** The scenario of the specification: three workers, four objects; the
    merged result keeps the order of the request. *)
Example processObjects_three_workers :
  processObjects Scenario.calm ["a"; "b"; "c"; "d"] (Scenario.pool 3) []
  = (Resolved [JS.Stored (Object "a" "evaluated");
               JS.Stored (Object "b" "evaluated");
               JS.Stored (Object "c" "evaluated");
               JS.Stored (Object "d" "evaluated")],
     [EvWrite (Process 0) (MsgEvaluate ["a"; "d"]) "evaluationCompleted";
      EvWrite (Process 1) (MsgEvaluate ["b"]) "evaluationCompleted";
      EvWrite (Process 2) (MsgEvaluate ["c"]) "evaluationCompleted"]).
Proof. vm_compute. reflexivity. Qed.

(** An object returned under the id ["__proto__"] becomes the prototype of
    [allResults]: the slot of an id for which nothing was returned is then
    looked up on that object. *)
Example merge_results_rebinds_prototype :
  map (JS.get (merge_results
                 [{| o_type := None;
                     objects := [Object "a" "1"; Object "__proto__" "2"] |}]))
    ["a"; "b"; "__proto__"; "toString"]
  = [JS.Stored (Object "a" "1"); JS.Rebound "b";
     JS.Stored (Object "__proto__" "2"); JS.Rebound "toString"].
Proof. by vm_compute. Qed.

(** ** extractNetworkDiagrams *)

Lemma polls_app l1 l2 : polls (l1 ++ l2) = polls l1 + polls l2.
Proof. unfold polls. by rewrite List.filter_app, length_app. Qed.

Lemma launch_all_render_log E self files :
  ∀ log,
    (launch_all files (render E self) log).2
    = log ++ map (λ f, EvExec f (scriptFolder self) maxBufferSize) files.
Proof.
  induction files as [|f files IH]; intros log; simpl; [by rewrite app_nil_r|].
  specialize (IH (log ++ [EvExec f (scriptFolder self) maxBufferSize])).
  destruct (launch_all files _ _). simpl in *. rewrite IH.
  by rewrite <- app_assoc.
Qed.

Lemma polls_exec dir files :
  polls (map (λ f, EvExec f dir maxBufferSize) files) = 0.
Proof. induction files as [|f files IH]; [done|]. exact IH. Qed.

(** The call is the retry loop with its budget of 100 runs, except on a
    null script folder, where it ends with the first run. *)
Lemma extractNetworkDiagrams_listed E self log files :
  readdir E log (scriptFolder self) = inr files →
  extractNetworkDiagrams E self log
  = retry_loop 99 (poll_diagrams E self) log.
Proof.
  intros Hdir. unfold extractNetworkDiagrams. rewrite Hdir.
  by destruct (scriptFolder self).
Qed.

Lemma extractNetworkDiagrams_in_folder E self log dir :
  scriptFolder self = Some dir →
  extractNetworkDiagrams E self log
  = retry_loop 99 (poll_diagrams E self) log.
Proof. intros Hdir. unfold extractNetworkDiagrams. by rewrite Hdir. Qed.

Lemma extractNetworkDiagrams_null_folder E self log err :
  scriptFolder self = None →
  readdir E log None = inl err →
  extractNetworkDiagrams E self log = (Rejected err, log ++ [EvReaddir None]).
Proof.
  intros Hnull Hdir. unfold extractNetworkDiagrams. by rewrite Hnull, Hdir.
Qed.

Lemma extractNetworkDiagrams_runs E self log :
  ∃ more,
    more ≤ 99
    ∧ extractNetworkDiagrams E self log
      = retry_loop more (poll_diagrams E self) log.
Proof.
  destruct (scriptFolder self) as [dir|] eqn:Hfolder.
  - exists 99. split; [done|]. by apply (extractNetworkDiagrams_in_folder _ _ _ dir).
  - destruct (readdir E log None) as [err|files] eqn:Hdir.
    + exists 0. split; [lia|].
      rewrite (extractNetworkDiagrams_null_folder E self log err) by done.
      simpl. unfold poll_diagrams. by rewrite Hfolder, Hdir.
    + exists 99. split; [done|].
      apply (extractNetworkDiagrams_listed E self log files).
      by rewrite Hfolder.
Qed.

Lemma retry_loop_resolved {A} (task : io A) more :
  ∀ log res log',
    retry_loop more task log = (Resolved res, log') →
    ∃ l, task l = (Resolved res, log').
Proof.
  induction more as [|more IH]; intros log res log'; simpl;
    destruct (task log) as [[r|e|] log1] eqn:Htask; intros H; simplify_eq;
    try (by exists log).
  by apply IH in H.
Qed.

Lemma poll_no_diagrams E self log files :
  readdir E log (scriptFolder self) = inr files →
  List.filter is_dot_file files = [] →
  poll_diagrams E self log
  = (Rejected no_diagrams,
     log ++ [EvReaddir (scriptFolder self); EvSetTimeout timeoutBetweenRetries]).
Proof.
  intros Hdir Hnone. unfold poll_diagrams. rewrite Hdir, Hnone. simpl.
  by rewrite <- app_assoc.
Qed.

Lemma retry_loop_no_diagrams E self more :
  ∀ log,
    (∀ k, k ≤ more →
       ∃ files,
         readdir E
           (log ++ concat (replicate k [EvReaddir (scriptFolder self);
                                        EvSetTimeout timeoutBetweenRetries]))
           (scriptFolder self) = inr files
         ∧ List.filter is_dot_file files = []) →
    retry_loop more (poll_diagrams E self) log
    = (Rejected no_diagrams,
       log ++ concat (replicate (S more)
                        [EvReaddir (scriptFolder self);
                         EvSetTimeout timeoutBetweenRetries])).
Proof.
  induction more as [|more IH]; intros log Hnone.
  - destruct (Hnone 0) as (files & Hdir & Hf); [lia|].
    simpl in Hdir. rewrite app_nil_r in Hdir.
    simpl. by rewrite (poll_no_diagrams E self log files).
  - destruct (Hnone 0) as (files & Hdir & Hf); [lia|].
    simpl in Hdir. rewrite app_nil_r in Hdir.
    cbn [retry_loop]. rewrite (poll_no_diagrams E self log files) by done.
    rewrite IH.
    + f_equal. rewrite <- app_assoc. done.
    + intros k Hk. destruct (Hnone (S k)) as (files' & Hdir' & Hf'); [lia|].
      exists files'. split; [|done]. rewrite <- Hdir'. f_equal.
      rewrite <- app_assoc. done.
Qed.

Lemma rendered_all E self fs ds :
  Forall2 (λ f d, ∃ l, (render E self f l).1 = Resolved d) fs ds →
  map file ds = fs
  ∧ Forall
      (λ d, ∃ l out, exec_dot E l (file d) = inr out ∧ data d = base64 E out)
      ds.
Proof.
  induction 1 as [|f d fs ds [l Hd] _ [IH1 IH2]]; [done|].
  unfold render in Hd. simpl in Hd.
  destruct (exec_dot E l f) as [err|out] eqn:Hexec; [done|].
  simplify_eq. simpl. split; [done|].
  constructor; [|done]. by exists l, out.
Qed.

(** The events of one run of the task. *)
Lemma poll_one_attempt E self l :
  ∃ a, (poll_diagrams E self l).2 = l ++ a ∧ one_attempt E self l a.
Proof.
  unfold poll_diagrams, one_attempt.
  destruct (readdir E l (scriptFolder self)) as [err|files]; [by eexists|].
  destruct (List.filter is_dot_file files) as [|f dotFiles] eqn:Hdot.
  - eexists. simpl. by rewrite <- app_assoc.
  - destruct (decide (length (f :: dotFiles) = 0)) as [?|_]; [done|].
    unfold async_map.
    pose proof (launch_all_render_log E self (f :: dotFiles)
                  (l ++ [EvReaddir (scriptFolder self)])) as Hlog.
    destruct (launch_all _ _ _) as [fates log']. simpl in *. subst log'.
    eexists. by rewrite <- app_assoc.
Qed.

(** The events of the retry loop: one attempt after the other, each begun
    where the one before it ended. *)
Lemma retry_loop_attempts E self more :
  ∀ log,
    ∃ attempts,
      (retry_loop more (poll_diagrams E self) log).2 = log ++ concat attempts
      ∧ 1 ≤ length attempts ≤ S more
      ∧ ∀ k a, attempts !! k = Some a →
          one_attempt E self (log ++ concat (take k attempts)) a.
Proof.
  assert (∀ log a,
            one_attempt E self log a →
            ∀ k a', [a] !! k = Some a' →
              one_attempt E self (log ++ concat (take k [a])) a') as Hsingle.
  { intros log a Ha [|k] a' Hk; [|done]. simpl in *. simplify_eq.
    by rewrite app_nil_r. }
  induction more as [|more IH]; intros log; simpl;
    destruct (poll_one_attempt E self log) as (a & Hlog & Ha);
    destruct (poll_diagrams E self log) as [[res|e|] log1]; simpl in *;
    subst log1;
    try (exists [a]; simpl; rewrite app_nil_r;
         split; [done|]; split; [lia|]; by apply Hsingle).
  destruct (IH (log ++ a)) as (attempts & Hlog' & Hlen & Hshape).
  exists (a :: attempts). simpl. rewrite Hlog', app_assoc.
  split; [done|]. split; [lia|].
  intros [|k] a' Hk; simpl in *.
  - simplify_eq. by rewrite app_nil_r.
  - rewrite app_assoc. by apply Hshape.
Qed.

(** A timer is armed in an attempt only for the 150 ms that follow a
    listing without diagram file. *)
Lemma one_attempt_timer E self l a ms :
  one_attempt E self l a →
  EvSetTimeout ms ∈ a →
  ms = 150
  ∧ ∃ files, readdir E l (scriptFolder self) = inr files
             ∧ List.filter is_dot_file files = [].
Proof.
  unfold one_attempt.
  destruct (readdir E l (scriptFolder self)) as [err|files].
  - intros -> Hin. apply elem_of_cons in Hin as [?|Hin]; [done|].
    by apply elem_of_nil in Hin.
  - destruct (List.filter is_dot_file files) as [|f dotFiles] eqn:Hdot.
    + intros -> Hin. apply elem_of_cons in Hin as [?|Hin]; [done|].
      apply elem_of_cons in Hin as [[= ->]|Hin]; [|by apply elem_of_nil in Hin].
      split; [done|]. by exists files.
    + intros -> Hin. apply elem_of_cons in Hin as [?|Hin]; [done|].
      apply list_elem_of_In, in_map_iff in Hin as (g & Hg & _). done.
Qed.

(** The claim C6 as stated fails: the delay is not between any two
    consecutive attempts.  On a folder that cannot be listed the 100
    attempts follow one another with no timer at all. *)
Lemma retries_without_delay :
  extractNetworkDiagrams Cases.folder_unreadable (Scenario.pool 1) []
  = (Rejected "ENOENT: no such file or directory",
     replicate 100 (EvReaddir (Some "/tmp/electric-brain-model")))
  ∧ polls (replicate 100 (EvReaddir (Some "/tmp/electric-brain-model"))) = 100
  ∧ waited (replicate 100 (EvReaddir (Some "/tmp/electric-brain-model"))) = 0.
Proof. split; [by vm_compute|]. split; by vm_compute. Qed.

(** C6, amended: the events of [extractNetworkDiagrams] are those of at
    least one and at most 100 attempts, each starting with one listing of
    the script folder, and a timer is armed only for the 150 ms that follow
    an attempt whose listing holds no diagram file (an attempt that fails
    otherwise is retried at once).  When no listing of the whole budget
    holds a diagram file, the log is exactly 100 rounds of one listing
    followed by a 150 ms timer, and the call then ends with the single
    failure "Could not find any architectural diagrams": not before a first
    listing, and with no 101st. *)
Theorem extractNetworkDiagrams_bounded_polling E self log :
  let round := [EvReaddir (scriptFolder self); EvSetTimeout 150] in
  (∀ k, k < 100 →
     ∃ files,
       readdir E (log ++ concat (replicate k round)) (scriptFolder self)
       = inr files
       ∧ List.filter is_dot_file files = []) →
  extractNetworkDiagrams E self log
  = (Rejected no_diagrams, log ++ concat (replicate 100 round))
  ∧ polls (concat (replicate 100 round)) = 100
  ∧ ∀ E' self' log',
      ∃ attempts,
        (extractNetworkDiagrams E' self' log').2 = log' ++ concat attempts
        ∧ 1 ≤ length attempts ≤ 100
        ∧ ∀ k a, attempts !! k = Some a →
            let begun := log' ++ concat (take k attempts) in
            one_attempt E' self' begun a
            ∧ polls a = 1
            ∧ ∀ ms, EvSetTimeout ms ∈ a →
                ms = 150
                ∧ ∃ files,
                    readdir E' begun (scriptFolder self') = inr files
                    ∧ List.filter is_dot_file files = [].
Proof.
  intros round Hnone. split_and!; [|by vm_compute|].
  - destruct (Hnone 0) as (files & Hdir & _); [lia|].
    simpl in Hdir. rewrite app_nil_r in Hdir.
    rewrite (extractNetworkDiagrams_listed E self log files Hdir).
    apply (retry_loop_no_diagrams E self 99 log).
    intros k Hk. apply Hnone. lia.
  - intros E' self' log'.
    destruct (extractNetworkDiagrams_runs E' self' log') as (more & Hmore & ->).
    destruct (retry_loop_attempts E' self' more log')
      as (attempts & Hlog & Hlen & Hshape).
    exists attempts. split; [done|]. split; [lia|].
    intros k a Hk begun. specialize (Hshape k a Hk). fold begun in Hshape.
    split; [done|]. split.
    + unfold one_attempt in Hshape.
      destruct (readdir E' begun (scriptFolder self')) as [err|files];
        [by subst a|].
      destruct (List.filter is_dot_file files) as [|f dotFiles];
        [by subst a|].
      subst a. change (EvReaddir ?d :: ?l) with ([EvReaddir d] ++ l).
      by rewrite polls_app, polls_exec.
    + intros ms. by apply one_attempt_timer.
Qed.

Lemma extractNetworkDiagrams_bounded_polling_witness :
  let self := Scenario.pool 1 in
  let round := [EvReaddir (scriptFolder self); EvSetTimeout 150] in
  extractNetworkDiagrams Scenario.calm self []
  = (Rejected no_diagrams, [] ++ concat (replicate 100 round))
  ∧ polls (concat (replicate 100 round)) = 100
  ∧ ∀ E' self' log',
      ∃ attempts,
        (extractNetworkDiagrams E' self' log').2 = log' ++ concat attempts
        ∧ 1 ≤ length attempts ≤ 100
        ∧ ∀ k a, attempts !! k = Some a →
            let begun := log' ++ concat (take k attempts) in
            one_attempt E' self' begun a
            ∧ polls a = 1
            ∧ ∀ ms, EvSetTimeout ms ∈ a →
                ms = 150
                ∧ ∃ files,
                    readdir E' begun (scriptFolder self') = inr files
                    ∧ List.filter is_dot_file files = [].
Proof.
  apply (extractNetworkDiagrams_bounded_polling Scenario.calm
           (Scenario.pool 1) []).
  intros k _. exists ["TrainingScript.lua"; "model.t7"].
  split; reflexivity.
Defined.

Lemma poll_render_fails E self log files f :
  readdir E log (scriptFolder self) = inr files →
  f ∈ List.filter is_dot_file files →
  (∀ l, ∃ e, exec_dot E l f = inl e) →
  ∃ e,
    poll_diagrams E self log
    = (Rejected e,
       log ++ EvReaddir (scriptFolder self)
           :: map (λ f, EvExec f (scriptFolder self) maxBufferSize)
                (List.filter is_dot_file files)).
Proof.
  intros Hdir Hf Hfail. unfold poll_diagrams. rewrite Hdir.
  destruct (decide (length (List.filter is_dot_file files) = 0)) as [Hz|_].
  { apply nil_length_inv in Hz. rewrite Hz in Hf.
    by apply elem_of_nil in Hf. }
  destruct (async_map_one_rejects (render E self)
              (List.filter is_dot_file files)
              (log ++ [EvReaddir (scriptFolder self)]) f Hf) as [e He].
  { intros l. unfold render. simpl. destruct (Hfail l) as [e ->].
    by eexists. }
  exists e. unfold async_map in *.
  pose proof (launch_all_render_log E self (List.filter is_dot_file files)
                (log ++ [EvReaddir (scriptFolder self)])) as Hlog.
  destruct (launch_all _ _ _) as [fates log']. simpl in *.
  subst log'. rewrite He. by rewrite <- app_assoc.
Qed.

(** As long as a diagram file that every listing holds fails to render,
    every run of the budget is made, and fails. *)
Lemma retry_loop_render_fails E self f :
  (∀ l, ∃ files,
     readdir E l (scriptFolder self) = inr files
     ∧ f ∈ List.filter is_dot_file files) →
  (∀ l, ∃ e, exec_dot E l f = inl e) →
  ∀ more log,
    ∃ e attempts,
      retry_loop more (poll_diagrams E self) log
      = (Rejected e, log ++ concat attempts)
      ∧ length attempts = S more
      ∧ ∀ k a, attempts !! k = Some a →
          ∃ files,
            readdir E (log ++ concat (take k attempts)) (scriptFolder self)
            = inr files
            ∧ a = EvReaddir (scriptFolder self)
                    :: map (λ g, EvExec g (scriptFolder self) maxBufferSize)
                         (List.filter is_dot_file files).
Proof.
  intros Hlisted Hfails.
  induction more as [|more IH]; intros log;
    destruct (Hlisted log) as (files & Hdir & Hf);
    destruct (poll_render_fails E self log files f Hdir Hf Hfails) as [e He];
    cbn [retry_loop]; rewrite He.
  - exists e. eexists [_]. simpl. rewrite app_nil_r.
    split; [done|]. split; [done|].
    intros [|k] a Hk; [|done]. simpl in *. simplify_eq.
    exists files. by rewrite app_nil_r.
  - destruct (IH (log ++ EvReaddir (scriptFolder self)
                       :: map (λ g, EvExec g (scriptFolder self) maxBufferSize)
                            (List.filter is_dot_file files)))
      as (e' & attempts & Hloop & Hlen & Hshape).
    exists e'. eexists (_ :: attempts). rewrite Hloop.
    split; [simpl; by rewrite <- app_assoc|]. split; [simpl; lia|].
    intros [|k] a Hk; simpl in *.
    + simplify_eq. exists files. by rewrite app_nil_r.
    + destruct (Hshape k a Hk) as (files' & Hdir' & ->).
      exists files'. split; [|done]. rewrite <- Hdir'. f_equal.
      by rewrite <- app_assoc.
Qed.

(** The claim C7 as stated fails: with the diagrams [a.dot] and [b.dot] in
    the folder and a renderer that fails on [a.dot] only, the whole call is
    rejected with the error of [a.dot]; the rendering of [b.dot], which
    succeeded at every attempt, is not delivered. *)
Lemma render_failure_is_not_isolated :
  List.filter is_dot_file ["a.dot"; "TrainingScript.lua"; "b.dot"]
  = ["a.dot"; "b.dot"]
  ∧ (∀ l, exec_dot Scenario.first_render_fails l "b.dot" = inr "<svg/>")
  ∧ (extractNetworkDiagrams Scenario.first_render_fails (Scenario.pool 1) []).1
    = Rejected "Command failed"
  ∧ ¬ ∃ res log' d,
        extractNetworkDiagrams Scenario.first_render_fails (Scenario.pool 1) []
        = (Resolved res, log')
        ∧ d ∈ res ∧ file d = "b.dot".
Proof.
  assert ((extractNetworkDiagrams Scenario.first_render_fails
             (Scenario.pool 1) []).1 = Rejected "Command failed") as Hrej
    by (vm_compute; reflexivity).
  split; [by vm_compute|]. split; [done|]. split; [done|].
  intros (res & log' & d & Hres & _). by rewrite Hres in Hrej.
Qed.

(** C7, amended: a rendering failure is not isolated.  An attempt in which
    one diagram file fails to render fails as a whole, and is retried as
    long as the budget lasts: when every listing holds a diagram file that
    fails to render each time, the call makes all of its 100 attempts, each
    one a listing followed by a run of the renderer on every diagram file
    of that listing, and is then rejected.  And a call that resolves
    delivers one rendering for every diagram file of one listing, each from
    a renderer run that succeeded: all the files or none. *)
Theorem extractNetworkDiagrams_all_or_nothing E self log f :
  (∀ l, ∃ files,
     readdir E l (scriptFolder self) = inr files
     ∧ f ∈ List.filter is_dot_file files) →
  (∀ l, ∃ e, exec_dot E l f = inl e) →
  (∃ e attempts,
     extractNetworkDiagrams E self log = (Rejected e, log ++ concat attempts)
     ∧ length attempts = 100
     ∧ ∀ k a, attempts !! k = Some a →
         ∃ files,
           readdir E (log ++ concat (take k attempts)) (scriptFolder self)
           = inr files
           ∧ a = EvReaddir (scriptFolder self)
                   :: map (λ g, EvExec g (scriptFolder self) maxBufferSize)
                        (List.filter is_dot_file files))
  ∧ ∀ E' self' log0 res log',
      extractNetworkDiagrams E' self' log0 = (Resolved res, log') →
      ∃ l files,
        readdir E' l (scriptFolder self') = inr files
        ∧ map file res = List.filter is_dot_file files
        ∧ Forall
            (λ d, ∃ l' out,
               exec_dot E' l' (file d) = inr out ∧ data d = base64 E' out)
            res.
Proof.
  intros Hlisted Hfails. split.
  - destruct (Hlisted log) as (files & Hdir & _).
    rewrite (extractNetworkDiagrams_listed E self log files Hdir).
    apply (retry_loop_render_fails E self f Hlisted Hfails 99 log).
  - clear. intros E' self' log0 res log' Hres.
    destruct (extractNetworkDiagrams_runs E' self' log0) as (more & _ & Hrun).
    rewrite Hrun in Hres.
    apply retry_loop_resolved in Hres as [l Hpoll].
    unfold poll_diagrams in Hpoll.
    destruct (readdir E' l (scriptFolder self')) as [err|files] eqn:Hdir;
      [done|].
    destruct (decide (length (List.filter is_dot_file files) = 0)); [done|].
    apply async_map_resolved in Hpoll.
    exists l, files. split; [done|]. by apply (rendered_all E' self').
Qed.

Lemma extractNetworkDiagrams_all_or_nothing_witness :
  let E := Scenario.first_render_fails in
  let self := Scenario.pool 1 in
  (∃ e attempts,
     extractNetworkDiagrams E self [] = (Rejected e, [] ++ concat attempts)
     ∧ length attempts = 100
     ∧ ∀ k a, attempts !! k = Some a →
         ∃ files,
           readdir E ([] ++ concat (take k attempts)) (scriptFolder self)
           = inr files
           ∧ a = EvReaddir (scriptFolder self)
                   :: map (λ g, EvExec g (scriptFolder self) maxBufferSize)
                        (List.filter is_dot_file files))
  ∧ ∀ E' self' log0 res log',
      extractNetworkDiagrams E' self' log0 = (Resolved res, log') →
      ∃ l files,
        readdir E' l (scriptFolder self') = inr files
        ∧ map file res = List.filter is_dot_file files
        ∧ Forall
            (λ d, ∃ l' out,
               exec_dot E' l' (file d) = inr out ∧ data d = base64 E' out)
            res.
Proof.
  apply (extractNetworkDiagrams_all_or_nothing Scenario.first_render_fails
           (Scenario.pool 1) [] "a.dot").
  - intros l. exists ["a.dot"; "TrainingScript.lua"; "b.dot"].
    split; [reflexivity|]. vm_compute. apply list_elem_of_here.
  - intros l. by exists "Command failed".
Defined.

(** A rendering that fails in the first attempt only: the second attempt
    lists the folder again, renders both files and the call resolves. *)
Example extractNetworkDiagrams_second_attempt :
  extractNetworkDiagrams Cases.first_attempt_fails (Scenario.pool 1) []
  = (Resolved [Diagram "a.dot" "<svg>a.dot</svg>";
               Diagram "b.dot" "<svg>b.dot</svg>"],
     let dir := Some "/tmp/electric-brain-model" in
     [EvReaddir dir;
      EvExec "a.dot" dir maxBufferSize; EvExec "b.dot" dir maxBufferSize;
      EvReaddir dir;
      EvExec "a.dot" dir maxBufferSize; EvExec "b.dot" dir maxBufferSize]).
Proof. by vm_compute. Qed.

(** With no script folder (none given to the constructor, or the empty
    string), the listing throws and nothing is retried. *)
Example extractNetworkDiagrams_without_folder :
  constructor (Some "") = constructor None
  ∧ extractNetworkDiagrams Cases.no_folder (constructor None) []
    = (Rejected "TypeError: path must be a string", [EvReaddir None]).
Proof. split; reflexivity. Qed.

(** ** startProcess *)

Lemma spawn_events_S self k :
  spawn_events self (S k)
  = spawn_events self k
      ++ [EvSpawn "luajit" "TrainingScript.lua" (k + 1)
            (numProcesses self) (scriptFolder self)].
Proof. unfold spawn_events. by rewrite seq_S, map_app. Qed.

Lemma launch_all_spawn E self log0 k :
  ∀ start,
    launch_all (seq start k) (spawn_worker E self)
      (log0 ++ spawn_events self start)
    = (map (spawn_at E self log0) (seq start k),
       log0 ++ spawn_events self (start + k)).
Proof.
  induction k as [|k IH]; intros start; simpl.
  - by rewrite Nat.add_0_r.
  - unfold spawn_worker at 1.
    replace ((log0 ++ spawn_events self start)
               ++ [EvSpawn "luajit" "TrainingScript.lua" (start + 1)
                     (numProcesses self) (scriptFolder self)])
      with (log0 ++ spawn_events self (S start))
      by (by rewrite spawn_events_S, app_assoc).
    rewrite IH. by replace (S start + k) with (start + S k) by lia.
Qed.

Lemma async_collect_rejected_inv {B} (fates : list (promise B)) e :
  async_collect fates = Rejected e → Rejected e ∈ fates.
Proof.
  induction fates as [|[b|e0|] fates IH]; simpl; [done| | |].
  - destruct (async_collect fates) as [bs|e'|]; [done| |done].
    intros [= ->]. apply list_elem_of_further. by apply IH.
  - intros [= ->]. apply list_elem_of_here.
  - destruct (async_collect fates) as [bs|e'|]; [done| |done].
    intros [= ->]. apply list_elem_of_further. by apply IH.
Qed.

Lemma spawned_map_resolved rs : spawned (map Resolved rs) = rs.
Proof. induction rs as [|r rs IH]; simpl; [done|]. by rewrite IH. Qed.


Lemma spawned_perm cs cs' : cs ≡ₚ cs' → spawned cs ≡ₚ spawned cs'.
Proof.
  induction 1 as [|c cs cs' _ IH|c c' cs|cs cs' cs'' _ IH1 _ IH2].
  - done.
  - destruct c; simpl; by rewrite ?IH.
  - destruct c, c'; simpl; try done. apply Permutation_swap.
  - by rewrite IH1.
Qed.


Lemma collect_resolved_all {B} (g : nat → promise B) N rs :
  async_collect (map g (seq 0 N)) = Resolved rs →
  ∀ n, n < N → ∃ b, g n = Resolved b.
Proof.
  intros Hc n Hn. apply async_collect_resolved in Hc.
  assert (g n ∈ map g (seq 0 N)) as Hin
    by (apply elem_of_map_seq; by exists n).
  rewrite Hc in Hin. apply list_elem_of_In, in_map_iff in Hin as (b & Hb & _).
  by exists b.
Qed.



(** *** The order of the completions *)

Lemma insert_by_perm time i l : insert_by time i l ≡ₚ i :: l.
Proof.
  induction l as [|j l IH]; simpl; [done|].
  destruct (time i <=? time j); [done|].
  rewrite IH. apply Permutation_swap.
Qed.

Lemma completion_order_perm_list time (l : list nat) :
  foldr (insert_by time) [] l ≡ₚ l.
Proof.
  induction l as [|i l IH]; simpl; [done|]. by rewrite insert_by_perm, IH.
Qed.

Lemma completion_order_perm time n : completion_order time n ≡ₚ seq 0 n.
Proof. apply completion_order_perm_list. Qed.

Lemma map_lookup_seq {A} (d : A) (l : list A) :
  map (λ n, default d (l !! n)) (seq 0 (length l)) = l.
Proof.
  induction l as [|x l IH]; simpl; [done|]. f_equal.
  rewrite <- seq_shift, map_map. exact IH.
Qed.


(** Every spawn is among the completions, once. *)
Lemma completions_perm E log fates : completions E log fates ≡ₚ fates.
Proof.
  unfold completions.
  etransitivity; [apply Permutation_map, completion_order_perm|].
  by rewrite map_lookup_seq.
Qed.



(** The processes pushed before the first failure and those pushed after
    it are, together, those of all the spawns that succeeded. *)
Lemma pushed_then_late cs :
  pushed_first cs
    ++ match first_failure cs with
       | Some (_, rest) => spawned rest
       | None => []
       end
  = spawned cs.
Proof.
  induction cs as [|[p|e|] cs IH]; simpl; [done| |done|done].
  by rewrite <- IH.
Qed.

Lemma pushed_first_length cs : length (pushed_first cs) ≤ length cs.
Proof.
  induction cs as [|[p|e|] cs IH]; simpl; lia.
Qed.

(** What [startProcess] comes to: the first failure among the completions
    rejects it; without any, it goes on to the handshake when every spawn
    has succeeded, and never settles otherwise. *)
Lemma startProcess_outcome E self log :
  let N := numProcesses self in
  let fates := map (spawn_at E self log) (seq 0 N) in
  let settled := completions E log fates in
  let log1 := log ++ spawn_events self N in
  let pool := processes self ++ pushed_first settled in
  let self1 := set_processes self pool in
  (∃ e rest,
     first_failure settled = Some (e, rest)
     ∧ startProcess E self log = (Rejected e, self1, log1)
     ∧ late_spawns E self log = spawned rest)
  ∨ (first_failure settled = None
     ∧ late_spawns E self log = []
     ∧ ((∃ rs,
           async_collect fates = Resolved rs
           ∧ startProcess E self log
             = (match (broadcast E pool MsgHandshake "handshake" log1).1 with
                | Resolved _ => Resolved ()
                | Rejected e => Rejected e
                | Pending => Pending
                end,
                self1,
                (broadcast E pool MsgHandshake "handshake" log1).2))
        ∨ ((∀ rs, async_collect fates ≠ Resolved rs)
           ∧ startProcess E self log = (Pending, self1, log1)))).
Proof.
  intros N fates settled log1 pool self1.
  unfold startProcess, late_spawns.
  pose proof (launch_all_spawn E self log N 0) as Hlaunch.
  change (spawn_events self 0) with (@nil event) in Hlaunch.
  rewrite app_nil_r in Hlaunch. simpl in Hlaunch. fold N. rewrite Hlaunch.
  fold fates log1 settled.
  destruct (first_failure settled) as [[e rest]|] eqn:Hff.
  - left. by exists e, rest.
  - right. split; [done|]. split; [done|].
    destruct (async_collect fates) as [rs|e|] eqn:Hc.
    + left. exists rs. split; [done|]. cbn [processes set_processes].
      fold pool self1.
      by destruct (broadcast E pool MsgHandshake "handshake" log1)
        as [[v|e|] log2].
    + right. by split.
    + right. by split.
Qed.

(** What the completions hold, in terms of the spawns. *)
Lemma completions_spawns E self log :
  let N := numProcesses self in
  let fates := map (spawn_at E self log) (seq 0 N) in
  let settled := completions E log fates in
  length settled = N
  ∧ (∀ fate, fate ∈ settled ↔ ∃ n, n < N ∧ spawn_at E self log n = fate)
  ∧ spawned settled ≡ₚ spawned fates.
Proof.
  intros N fates settled.
  pose proof (completions_perm E log fates) as Hperm. fold settled in Hperm.
  split; [|split].
  - rewrite Hperm. subst fates. by rewrite length_map, length_seq.
  - intros fate. rewrite Hperm. apply elem_of_map_seq.
  - by apply spawned_perm.
Qed.


(** A newly constructed orchestrator is configured for one worker. *)
Example startProcess_default :
  startProcess Scenario.calm (constructor (Some "/tmp/model")) []
  = (Resolved (),
     set_processes (constructor (Some "/tmp/model")) [Process 0],
     [EvSpawn "luajit" "TrainingScript.lua" 1 1 (Some "/tmp/model");
      EvWrite (Process 0) MsgHandshake "handshake"]).
Proof. reflexivity. Qed.



Example startProcess_two_workers :
  startProcess Scenario.calm (Scenario.fresh 2) []
  = (Resolved (),
     set_processes (Scenario.fresh 2) [Process 0; Process 1],
     spawn_events (Scenario.fresh 2) 2
       ++ writes [Process 0; Process 1] MsgHandshake "handshake").
Proof. reflexivity. Qed.

(** The pool is in the order in which the spawns complete. *)
Example startProcess_completion_order :
  startProcess Cases.last_spawn_first (Scenario.fresh 3) []
  = (Resolved (),
     set_processes (Scenario.fresh 3) [Process 2; Process 1; Process 0],
     spawn_events (Scenario.fresh 3) 3
       ++ writes [Process 2; Process 1; Process 0] MsgHandshake "handshake").
Proof. reflexivity. Qed.

(** A spawn that fails before the others complete rejects the startup
    while the pool is still empty; the other workers are pushed after the
    rejection. *)
Example startProcess_late_spawns :
  startProcess Cases.first_spawn_fails (Scenario.fresh 3) []
  = (Rejected "spawn EAGAIN", Scenario.fresh 3,
     spawn_events (Scenario.fresh 3) 3)
  ∧ late_spawns Cases.first_spawn_fails (Scenario.fresh 3) []
    = [Process 1; Process 2].
Proof. split; reflexivity. Qed.

(** * Further properties of the orchestrator *)

(** ** The residency record *)

Lemma loadObject_resolved E id input output self log r self' log' :
  loadObject E id input output self log = (Resolved r, self', log') →
  r = processes self
  ∧ self' = set_allLoadedEntries self (allLoadedEntries self ++ [id])
  ∧ log' = log ++ writes (processes self) (MsgStore id input output) "stored".
Proof.
  unfold loadObject. intros H.
  pose proof (broadcast_exchanges E (processes self)
                (MsgStore id input output) "stored" log) as Hseq.
  destruct (broadcast E (processes self) _ "stored" log) as [[v|e|] l];
    simplify_eq. simpl in Hseq. by destruct Hseq as (-> & -> & _).
Qed.

Lemma removeObject_resolved E id self log r self' log' :
  removeObject E id self log = (Resolved r, self', log') →
  r = processes self
  ∧ self'
    = set_allLoadedEntries self
        (JS.splice (allLoadedEntries self)
           (JS.indexOf (allLoadedEntries self) id) 1)
  ∧ log' = log ++ writes (processes self) (MsgForget id) "forgotten".
Proof.
  unfold removeObject. intros H.
  pose proof (broadcast_exchanges E (processes self) (MsgForget id)
                "forgotten" log) as Hseq.
  destruct (broadcast E (processes self) _ "forgotten" log) as [[v|e|] l];
    simplify_eq. simpl in Hseq. by destruct Hseq as (-> & -> & _).
Qed.

Lemma indexOf_from_first before after x i :
  x ∉ before →
  JS.indexOf_from (before ++ x :: after) x i
  = (i + Z.of_nat (length before))%Z.
Proof.
  revert i. induction before as [|y before IH]; intros i Hx; simpl.
  - case_decide; [lia|done].
  - apply not_elem_of_cons in Hx as [Hne Hx].
    case_decide; [congruence|]. rewrite IH by done. lia.
Qed.

Lemma splice_one_at {A} (before after : list A) x :
  JS.splice (before ++ x :: after) (Z.of_nat (length before)) 1
  = before ++ after.
Proof.
  unfold JS.splice. rewrite length_app. simpl.
  destruct (Z.ltb_spec (Z.of_nat (length before)) 0) as [Hneg|_]; [lia|].
  replace (Z.to_nat (Z.min (Z.of_nat (length before))
                       (Z.of_nat (length before + S (length after)))))
    with (length before) by lia.
  match goal with
  | |- _ ++ drop ?n _ = _ => replace n with (length before + 1) by lia
  end.
  rewrite take_app_length. f_equal.
  rewrite drop_app_add'; [|done]. done.
Qed.

(** X1: [removeObject(id)] asks the workers to forget one at a time, in
    index order; it resolves only when every worker has replied
    ["forgotten"], and the record is spliced only then.  When the exchange
    with a worker fails the promise rejects with that error, no later worker
    is asked, and [self] is left untouched: the record still lists every
    identifier it listed, although the workers before the failing one have
    forgotten the object. *)
Theorem removeObject_all_or_nothing E id self log :
  let m := MsgForget id in
  let ps := processes self in
  let '(result, self', log') := removeObject E id self log in
  msg_type m = "forget"
  ∧ sequential_exchanges E log ps m "forgotten" result log'
  ∧ match result with
    | Resolved _ =>
        allLoadedEntries self'
        = JS.splice (allLoadedEntries self)
            (JS.indexOf (allLoadedEntries self) id) 1
    | _ => self' = self
    end
  ∧ ((∀ k, k < length ps →
        ∃ o, exchange_at E log ps m "forgotten" k = Resolved o) →
     result = Resolved ps)
  ∧ (∀ k e,
       exchange_at E log ps m "forgotten" k = Rejected e →
       (∀ j, j < k →
          ∃ o, exchange_at E log ps m "forgotten" j = Resolved o) →
       result = Rejected e
       ∧ self' = self
       ∧ log' = log ++ writes (take (S k) ps) m "forgotten").
Proof.
  intros m ps. unfold removeObject. fold m. fold ps.
  pose proof (broadcast_exchanges E ps m "forgotten" log) as Hseq.
  pose proof (broadcast_all_reply E ps m "forgotten" log) as Hall.
  pose proof (broadcast_first_failure E ps m "forgotten" log) as Hfail.
  destruct (broadcast E ps m "forgotten" log) as [[value|e|] log'];
    cbn [fst snd] in *;
    (split; [done|]); (split; [exact Hseq|]); (split; [done|]); split.
  - intros H. by injection (Hall H) as ->.
  - intros k e Hk Hbefore. by specialize (Hfail k e Hk Hbefore).
  - intros H. by specialize (Hall H).
  - intros k e' Hk Hbefore. specialize (Hfail k e' Hk Hbefore).
    simplify_eq. split; [done|]. split; [done|].
    simpl in Hseq. destruct Hseq as (k' & Hk' & Hke & Hbefore' & ->).
    destruct (Nat.lt_trichotomy k k') as [Hlt|[->|Hlt]]; [|done|].
    + destruct (Hbefore' k Hlt) as [o Ho]. congruence.
    + destruct (Hbefore k' Hlt) as [o Ho]. congruence.
  - intros H. by specialize (Hall H).
  - intros k e' Hk Hbefore. by specialize (Hfail k e' Hk Hbefore).
Qed.

Example removeObject_second_worker_breaks :
  removeObject Cases.second_worker_breaks_on_forget "a"
    (set_allLoadedEntries (Scenario.pool 3) ["a"; "b"]) []
  = (Rejected "write EPIPE",
     set_allLoadedEntries (Scenario.pool 3) ["a"; "b"],
     [EvWrite (Process 0) (MsgForget "a") "forgotten";
      EvWrite (Process 1) (MsgForget "a") "forgotten"]).
Proof. reflexivity. Qed.

(** X2: a [removeObject(id)] that resolves, for an [id] the record holds,
    removes its first occurrence and nothing else: the other identifiers
    keep their order and the record is one shorter.  On a record without
    duplicates the [id] is then gone and the record is still without
    duplicates. *)
Theorem removeObject_present_removes_first E id self log r self' log'
    before after :
  allLoadedEntries self = before ++ id :: after →
  id ∉ before →
  removeObject E id self log = (Resolved r, self', log') →
  allLoadedEntries self' = before ++ after
  ∧ S (length (allLoadedEntries self')) = length (allLoadedEntries self)
  ∧ (NoDup (allLoadedEntries self) →
     NoDup (allLoadedEntries self') ∧ id ∉ allLoadedEntries self').
Proof.
  intros Hrec Hfirst (_ & -> & _)%removeObject_resolved. simpl.
  rewrite Hrec. unfold JS.indexOf. rewrite indexOf_from_first by done.
  rewrite Z.add_0_l, splice_one_at. split; [done|]. split.
  - rewrite !length_app. simpl. lia.
  - intros Hnd. apply NoDup_app in Hnd as (Hb & Hdisj & Ha).
    apply NoDup_cons in Ha as [Hid Ha]. split.
    + apply NoDup_app. split; [done|]. split; [|done].
      intros x Hx Hxa. apply (Hdisj x Hx). by apply list_elem_of_further.
    + intros [?|?]%elem_of_app; done.
Qed.

Lemma removeObject_present_removes_first_witness :
  ["a"; "c"] = ["a"] ++ ["c"]
  ∧ S (length ["a"; "c"]) = length ["a"; "b"; "c"]
  ∧ (NoDup ["a"; "b"; "c"] → NoDup ["a"; "c"] ∧ "b" ∉ ["a"; "c"]).
Proof.
  eapply (removeObject_present_removes_first Scenario.calm "b"
            (set_allLoadedEntries (Scenario.pool 2) ["a"; "b"; "c"]) []
            _ (set_allLoadedEntries (Scenario.pool 2) ["a"; "c"]) _
            ["a"] ["c"]).
  - reflexivity.
  - intros [?|?%elem_of_nil]%elem_of_cons; done.
  - reflexivity.
Defined.

(** X3: [loadObject] does not check the record: loading an [id] that is
    already recorded appends it a second time, and one [removeObject] then
    removes the older occurrence only.  After load, load again and remove,
    all resolving, the record still lists [id] - as its newest entry -
    although every worker has been told to forget the object. *)
Theorem loadObject_does_not_deduplicate E id input output self log
    r1 self1 log1 r2 self2 log2 before after :
  allLoadedEntries self = before ++ id :: after →
  id ∉ before →
  loadObject E id input output self log = (Resolved r1, self1, log1) →
  removeObject E id self1 log1 = (Resolved r2, self2, log2) →
  allLoadedEntries self1 = before ++ id :: after ++ [id]
  ∧ ¬ NoDup (allLoadedEntries self1)
  ∧ allLoadedEntries self2 = before ++ after ++ [id]
  ∧ id ∈ allLoadedEntries self2
  ∧ log2 = log ++ writes (processes self) (MsgStore id input output) "stored"
               ++ writes (processes self) (MsgForget id) "forgotten".
Proof.
  intros Hrec Hfirst (_ & -> & ->)%loadObject_resolved
    (_ & -> & ->)%removeObject_resolved. simpl. rewrite Hrec.
  replace ((before ++ id :: after) ++ [id])
    with (before ++ id :: (after ++ [id])) by (by rewrite <- app_assoc).
  unfold JS.indexOf. rewrite indexOf_from_first by done.
  rewrite Z.add_0_l, splice_one_at.
  split; [done|]. split.
  { intros (_ & _ & Hnd)%NoDup_app. apply NoDup_cons in Hnd as [Hid _].
    apply Hid, elem_of_app. right. apply list_elem_of_here. }
  split; [done|]. split.
  { apply elem_of_app. right. apply elem_of_app. right.
    apply list_elem_of_here. }
  by rewrite <- app_assoc.
Qed.

Lemma loadObject_does_not_deduplicate_witness :
  ["a"; "b"; "a"] = [] ++ "a" :: ["b"] ++ ["a"]
  ∧ ¬ NoDup ["a"; "b"; "a"]
  ∧ ["b"; "a"] = [] ++ ["b"] ++ ["a"]
  ∧ "a" ∈ ["b"; "a"]
  ∧ [EvWrite (Process 0) (MsgStore "a" "in" "out") "stored";
     EvWrite (Process 0) (MsgForget "a") "forgotten"]
    = [] ++ writes [Process 0] (MsgStore "a" "in" "out") "stored"
         ++ writes [Process 0] (MsgForget "a") "forgotten".
Proof.
  eapply (loadObject_does_not_deduplicate Scenario.calm "a" "in" "out"
            (set_allLoadedEntries (Scenario.pool 1) ["a"; "b"]) []
            _ (set_allLoadedEntries (Scenario.pool 1) ["a"; "b"; "a"]) _
            _ (set_allLoadedEntries (Scenario.pool 1) ["b"; "a"]) _
            [] ["b"]).
  - reflexivity.
  - apply not_elem_of_nil.
  - reflexivity.
  - reflexivity.
Defined.

Lemma broadcast_log_prefix E ps m expected log :
  ∃ k, (broadcast E ps m expected log).2
       = log ++ writes (take k ps) m expected.
Proof.
  pose proof (broadcast_exchanges E ps m expected log) as Hseq.
  destruct (broadcast E ps m expected log) as [[v|e|] log']; simpl in *.
  - destruct Hseq as (_ & -> & _). exists (length ps). by rewrite take_ge.
  - destruct Hseq as (k & _ & _ & _ & ->). by exists (S k).
  - destruct Hseq as (k & _ & _ & _ & ->). by exists (S k).
Qed.

Lemma elem_of_take_pool {A} (l : list A) k x : x ∈ take k l → x ∈ l.
Proof.
  intros Hx. rewrite <- (take_drop k l). apply elem_of_app. by left.
Qed.

Lemma splice_length_le {A} (l : list A) start count :
  length (JS.splice l start count) ≤ length l.
Proof.
  unfold JS.splice. rewrite length_app, length_take, length_drop.
  destruct (Z.ltb_spec start 0); lia.
Qed.

(** X4: whatever the workers answer, a sequence of [loadObject] and
    [removeObject] operations leaves the pool, the script folder and the
    configured number of workers as they were, adds to the log nothing but
    store and forget messages written to processes of the pool, and makes
    the record grow by at most one entry per load. *)
Theorem run_ops_frame E ops self log :
  let '(self', log') := run_ops E ops self log in
  processes self' = processes self
  ∧ scriptFolder self' = scriptFolder self
  ∧ numProcesses self' = numProcesses self
  ∧ length (allLoadedEntries self') ≤ length (allLoadedEntries self) + loads ops
  ∧ ∃ added,
      log' = log ++ added
      ∧ Forall
          (λ ev, ∃ p m expected,
             ev = EvWrite p m expected
             ∧ p ∈ processes self
             ∧ (msg_type m = "store" ∨ msg_type m = "forget"))
          added.
Proof.
  revert self log. induction ops as [|op ops IH]; intros self log; simpl.
  - split_and!; [done|done|done|lia|]. exists []. by rewrite app_nil_r.
  - assert (∀ m k,
              msg_type m = "store" ∨ msg_type m = "forget" →
              ∀ expected,
                Forall
                  (λ ev, ∃ p m' expected',
                     ev = EvWrite p m' expected'
                     ∧ p ∈ processes self
                     ∧ (msg_type m' = "store" ∨ msg_type m' = "forget"))
                  (writes (take k (processes self)) m expected)) as Hwrites.
    { intros m k Hm expected. unfold writes. apply Forall_forall.
      intros ev (p & Hp & Hin)%list_elem_of_In%in_map_iff.
      exists p, m, expected. split; [done|]. split; [|done].
      apply list_elem_of_In in Hin. by apply elem_of_take_pool in Hin. }
    destruct op as [id input output|id].
    + unfold loadObject.
      destruct (broadcast_log_prefix E (processes self)
                  (MsgStore id input output) "stored" log) as [k Hk].
      destruct (broadcast E (processes self) _ "stored" log)
        as [fate log1]. simpl in Hk. subst log1.
      set (self1 := match fate with
                    | Resolved _ =>
                        set_allLoadedEntries self (allLoadedEntries self ++ [id])
                    | _ => self
                    end).
      assert (processes self1 = processes self
              ∧ scriptFolder self1 = scriptFolder self
              ∧ numProcesses self1 = numProcesses self
              ∧ length (allLoadedEntries self1)
                ≤ S (length (allLoadedEntries self))) as (Hp & Hs & Hn & Hl).
      { subst self1. destruct fate; simpl; split_and!; try done; try lia.
        rewrite length_app. simpl. lia. }
      specialize (IH self1 (log ++ writes (take k (processes self))
                                     (MsgStore id input output) "stored")).
      replace (let '(_, self', log') :=
                 match fate with
                 | Resolved _ =>
                     (fate,
                      set_allLoadedEntries self (allLoadedEntries self ++ [id]),
                      log ++ writes (take k (processes self))
                               (MsgStore id input output) "stored")
                 | _ =>
                     (fate, self,
                      log ++ writes (take k (processes self))
                               (MsgStore id input output) "stored")
                 end in run_ops E ops self' log')
        with (run_ops E ops self1
                (log ++ writes (take k (processes self))
                          (MsgStore id input output) "stored"))
        by (subst self1; by destruct fate).
      destruct (run_ops E ops self1 _) as [self' log'].
      destruct IH as (Hp' & Hs' & Hn' & Hl' & added & -> & Hadded).
      split; [congruence|]. split; [congruence|]. split; [congruence|].
      split; [unfold loads in *; simpl; lia|].
      eexists. rewrite <- app_assoc. split; [done|].
      apply Forall_app. split; [by apply Hwrites; left|].
      by rewrite Hp in Hadded.
    + unfold removeObject.
      destruct (broadcast_log_prefix E (processes self)
                  (MsgForget id) "forgotten" log) as [k Hk].
      destruct (broadcast E (processes self) _ "forgotten" log)
        as [fate log1]. simpl in Hk. subst log1.
      set (self1 := match fate with
                    | Resolved _ =>
                        set_allLoadedEntries self
                          (JS.splice (allLoadedEntries self)
                             (JS.indexOf (allLoadedEntries self) id) 1)
                    | _ => self
                    end).
      assert (processes self1 = processes self
              ∧ scriptFolder self1 = scriptFolder self
              ∧ numProcesses self1 = numProcesses self
              ∧ length (allLoadedEntries self1)
                ≤ length (allLoadedEntries self)) as (Hp & Hs & Hn & Hl).
      { subst self1. destruct fate; simpl; split_and!; try done.
        apply splice_length_le. }
      specialize (IH self1 (log ++ writes (take k (processes self))
                                     (MsgForget id) "forgotten")).
      replace (let '(_, self', log') :=
                 match fate with
                 | Resolved _ =>
                     (fate,
                      set_allLoadedEntries self
                        (JS.splice (allLoadedEntries self)
                           (JS.indexOf (allLoadedEntries self) id) 1),
                      log ++ writes (take k (processes self))
                               (MsgForget id) "forgotten")
                 | _ =>
                     (fate, self,
                      log ++ writes (take k (processes self))
                               (MsgForget id) "forgotten")
                 end in run_ops E ops self' log')
        with (run_ops E ops self1
                (log ++ writes (take k (processes self))
                          (MsgForget id) "forgotten"))
        by (subst self1; by destruct fate).
      destruct (run_ops E ops self1 _) as [self' log'].
      destruct IH as (Hp' & Hs' & Hn' & Hl' & added & -> & Hadded).
      split; [congruence|]. split; [congruence|]. split; [congruence|].
      split; [unfold loads in *; simpl; lia|].
      eexists. rewrite <- app_assoc. split; [done|].
      apply Forall_app. split; [by apply Hwrites; right|].
      by rewrite Hp in Hadded.
Qed.

(** ** An empty pool *)

(** X5: before [startProcess] has filled the pool, nothing is written to
    any worker, and the methods disagree on what that means: [loadObject]
    resolves at once and records [id] although no worker has stored the
    object, [removeObject] and [reset] resolve too, [processObjects]
    rejects for any list that is not empty, and [processBatch] and
    [executeTrainingIteration] throw before returning a promise. *)
Theorem empty_pool_behaviour E self log id input output ids batchFilename :
  processes self = [] →
  loadObject E id input output self log
  = (Resolved [], set_allLoadedEntries self (allLoadedEntries self ++ [id]),
     log)
  ∧ (removeObject E id self log).1.1 = Resolved []
  ∧ (removeObject E id self log).2 = log
  ∧ reset E self log = (Resolved [], self, log)
  ∧ (ids ≠ [] → ∃ e, processObjects E ids self log = (Rejected e, log))
  ∧ (∃ e, processBatch E batchFilename self log = inl e)
  ∧ (∃ e, executeTrainingIteration E batchFilename self log = inl e).
Proof.
  intros Hempty.
  unfold loadObject, removeObject, reset, processObjects, processBatches,
    processBatch, executeTrainingIteration, with_first_process, broadcast,
    Promise_each.
  rewrite Hempty. simpl. split_and!; try done; try by eexists.
  intros Hids. destruct ids as [|x ids]; [done|]. simpl. by eexists.
Qed.

Lemma empty_pool_behaviour_witness :
  let self := constructor (Some "/tmp/model") in
  loadObject Scenario.calm "a" "in" "out" self []
  = (Resolved [], set_allLoadedEntries self (allLoadedEntries self ++ ["a"]),
     [])
  ∧ (removeObject Scenario.calm "a" self []).1.1 = Resolved []
  ∧ (removeObject Scenario.calm "a" self []).2 = []
  ∧ reset Scenario.calm self [] = (Resolved [], self, [])
  ∧ (["a"; "b"] ≠ [] →
     ∃ e, processObjects Scenario.calm ["a"; "b"] self [] = (Rejected e, []))
  ∧ (∃ e, processBatch Scenario.calm "batch.t7" self [] = inl e)
  ∧ (∃ e, executeTrainingIteration Scenario.calm "batch.t7" self [] = inl e).
Proof.
  apply (empty_pool_behaviour Scenario.calm (constructor (Some "/tmp/model"))
           [] "a" "in" "out" ["a"; "b"] "batch.t7").
  reflexivity.
Defined.

(** ** Starting and stopping the pool *)

(** X6: [startProcess] touches nothing of [self] but the pool, to which it
    only appends: at most [numProcesses] processes, and exactly
    [numProcesses] when it resolves, so a second start on a started pool
    doubles it.  When it resolves, the log has gained the [numProcesses]
    spawns followed by one handshake with every process of the new pool,
    the older ones included.  No handshake is written unless every spawn has
    succeeded: a spawn that never completes holds the startup for ever. *)
Theorem startProcess_grows_pool E self log :
  let N := numProcesses self in
  let '(result, self', log') := startProcess E self log in
  scriptFolder self' = scriptFolder self
  ∧ numProcesses self' = numProcesses self
  ∧ allLoadedEntries self' = allLoadedEntries self
  ∧ (∃ news, processes self' = processes self ++ news ∧ length news ≤ N)
  ∧ (∀ v, result = Resolved v →
       length (processes self') = length (processes self) + N
       ∧ log' = log ++ spawn_events self N
                    ++ writes (processes self') MsgHandshake "handshake")
  ∧ (log' ≠ log ++ spawn_events self N →
     ∀ n, n < N → ∃ p, spawn_at E self log n = Resolved p)
  ∧ (∀ n, n < N → spawn_at E self log n = Pending →
     result ≠ Resolved () ∧ log' = log ++ spawn_events self N).
Proof.
  intros N.
  set (fates := map (spawn_at E self log) (seq 0 N)).
  set (settled := completions E log fates).
  set (pool := processes self ++ pushed_first settled).
  destruct (completions_spawns E self log) as (Hlen & _ & Hperm).
  fold N fates settled in Hlen, Hperm.
  pose proof (pushed_first_length settled) as Hnews.
  pose proof (pushed_then_late settled) as Hsplit.
  pose proof (collect_resolved_all (spawn_at E self log) N) as Hinv.
  fold fates in Hinv.
  destruct (startProcess_outcome E self log)
    as [(e & rest & Hff & Hstart & _)
       |(Hff & _ & [(rs & Hc & Hstart)|(Hc & Hstart)])];
    fold N fates settled pool in Hff, Hstart;
    rewrite Hstart; rewrite Hff in Hsplit;
    cbn [processes set_processes scriptFolder numProcesses allLoadedEntries].
  - split; [done|]. split; [done|]. split; [done|].
    split; [exists (pushed_first settled); split; [done|lia]|]. done.
  - rewrite app_nil_r in Hsplit.
    assert (length (pushed_first settled) = N) as Hall.
    { rewrite Hsplit, Hperm.
      assert (length fates = N) as Hflen
        by (subst fates; by rewrite length_map, length_seq).
      fold N fates in Hc. clearbody fates. apply async_collect_resolved in Hc.
      rewrite Hc, spawned_map_resolved. by rewrite Hc, length_map in Hflen. }
    pose proof (broadcast_exchanges E pool MsgHandshake "handshake"
                  (log ++ spawn_events self N)) as Hseq.
    assert (∀ n, n < N → spawn_at E self log n ≠ Pending) as Hnone.
    { intros n Hn Hp. destruct (Hinv rs Hc n Hn) as [p Hp']. congruence. }
    split; [done|]. split; [done|]. split; [done|].
    split; [exists (pushed_first settled); split; [done|lia]|].
    destruct (broadcast E pool MsgHandshake "handshake"
                (log ++ spawn_events self N))
      as [[v|e|] log2]; cbn [fst snd] in *; split.
    + intros _ _. destruct Hseq as (_ & -> & _). split.
      * unfold pool. rewrite length_app. lia.
      * by rewrite <- app_assoc.
    + split; [intros _; by apply (Hinv rs)|].
      intros n Hn Hp. by destruct (Hnone n Hn).
    + done.
    + split; [intros _; by apply (Hinv rs)|].
      intros n Hn Hp. by destruct (Hnone n Hn).
    + done.
    + split; [intros _; by apply (Hinv rs)|].
      intros n Hn Hp. by destruct (Hnone n Hn).
  - split; [done|]. split; [done|]. split; [done|].
    split; [exists (pushed_first settled); split; [done|lia]|]. done.
Qed.

Example startProcess_first_spawn_hangs :
  startProcess Cases.first_spawn_hangs (Scenario.fresh 2) []
  = (Pending,
     set_processes (Scenario.fresh 2) [Process 1],
     spawn_events (Scenario.fresh 2) 2).
Proof. reflexivity. Qed.



(** ** More on processObjects *)

Lemma alter_push_sample x i (bs : list batch) :
  i < length bs →
  concat (map samples (alter (push_sample x) i bs))
  ≡ₚ concat (map samples bs) ++ [x]
  ∧ map process_of (alter (push_sample x) i bs) = map process_of bs.
Proof.
  revert i. induction bs as [|b bs IH]; intros i Hi; simpl in Hi; [lia|].
  destruct i as [|i]; simpl.
  - split; [|done]. rewrite <- !app_assoc. apply Permutation_app_head.
    apply Permutation_app_comm.
  - destruct (IH i ltac:(lia)) as [Hperm Hproc]. split.
    + rewrite <- app_assoc. apply Permutation_app_head. exact Hperm.
    + f_equal. exact Hproc.
Qed.

Lemma distribute_partition ids :
  ∀ index bs bs',
    distribute ids index bs = Some bs' →
    concat (map samples bs') ≡ₚ concat (map samples bs) ++ ids
    ∧ map process_of bs' = map process_of bs.
Proof.
  induction ids as [|x ids IH]; intros index bs bs'; simpl.
  - intros [= <-]. by rewrite app_nil_r.
  - destruct (length bs) as [|n] eqn:Hlen; [done|]. intros Hd.
    apply IH in Hd as [Hperm Hproc].
    destruct (alter_push_sample x (index mod S n) bs) as [Hperm' Hproc'].
    { rewrite Hlen. apply Nat.mod_upper_bound. lia. }
    split.
    + rewrite Hperm, Hperm', <- app_assoc. done.
    + by rewrite Hproc, Hproc'.
Qed.

Lemma empty_buckets (ps : list process) :
  concat (map samples (map (λ p, {| samples := []; process_of := p |}) ps))
  = []
  ∧ map process_of (map (λ p, {| samples := []; process_of := p |}) ps) = ps.
Proof.
  induction ps as [|p ps [IH1 IH2]]; simpl; [done|]. by rewrite IH1, IH2.
Qed.

(** X8: the buckets of [processObjects] are a partition of the request:
    taken together they hold exactly the ids of the request, each as many
    times as it was asked for, none dropped and none added; and the buckets
    belong to the processes of the pool, one each, in pool order. *)
Theorem processBatches_partition self ids bs :
  processBatches self ids = Some bs →
  concat (map samples bs) ≡ₚ ids
  ∧ map process_of bs = processes self
  ∧ length bs = length (processes self).
Proof.
  unfold processBatches. intros Hd.
  apply distribute_partition in Hd as [Hperm Hproc].
  destruct (empty_buckets (processes self)) as [He Hp].
  rewrite He in Hperm. rewrite Hp in Hproc.
  split; [done|]. split; [done|].
  by rewrite <- Hproc, length_map.
Qed.

Lemma processBatches_partition_witness :
  concat (map samples [Batch ["a"; "d"] (Process 0);
                       Batch ["b"; "e"] (Process 1);
                       Batch ["c"; "a"] (Process 2)])
  ≡ₚ ["a"; "b"; "c"; "d"; "e"; "a"]
  ∧ map process_of [Batch ["a"; "d"] (Process 0);
                    Batch ["b"; "e"] (Process 1);
                    Batch ["c"; "a"] (Process 2)]
    = processes (Scenario.pool 3)
  ∧ length [Batch ["a"; "d"] (Process 0);
            Batch ["b"; "e"] (Process 1);
            Batch ["c"; "a"] (Process 2)]
    = length (processes (Scenario.pool 3)).
Proof.
  apply (processBatches_partition (Scenario.pool 3)
           ["a"; "b"; "c"; "d"; "e"; "a"]).
  reflexivity.
Defined.

(** X9: the round-robin deal is balanced: with [N >= 1] processes and [n]
    ids, the bucket of process [w] holds exactly [(n + N - 1 - w) / N] ids,
    so every bucket holds [n / N] ids or one more, and an earlier process
    never holds fewer ids than a later one. *)
Theorem processBatches_balanced self ids :
  processes self ≠ [] →
  let N := length (processes self) in
  let n := length ids in
  ∃ bs,
    processBatches self ids = Some bs
    ∧ ∀ w b, bs !! w = Some b →
        length (samples b) = (n + N - 1 - w) / N
        ∧ n / N ≤ length (samples b) ≤ n / N + 1
        ∧ ∀ w' b', w ≤ w' → bs !! w' = Some b' →
            length (samples b') ≤ length (samples b).
Proof.
  intros Hne N n.
  destruct (round_robin (processes self) ids Hne) as (bs & Hbs & Hlen & Hinv).
  fold N in Hlen, Hinv. exists bs. split; [done|].
  assert (0 < N) as HN
    by (subst N; destruct (processes self); [done|simpl; lia]).
  assert (∀ w b, bs !! w = Some b →
            w < N ∧ length (samples b) = (n + N - 1 - w) / N) as Hsize.
  { intros w b Hb.
    assert (w < N) as Hw by (rewrite <- Hlen; by apply lookup_lt_Some in Hb).
    split; [done|].
    destruct (lookup_lt_is_Some_2 (processes self) w Hw) as [p Hp].
    destruct (Hinv w p Hp) as (b' & Hb' & _ & Hsamples).
    assert (b' = b) as -> by congruence.
    set (L := length (samples b)).
    assert (n ≤ L * N + w) as Hup.
    { pose proof (Hsamples L) as Hout.
      rewrite (lookup_ge_None_2 (samples b)) in Hout by (subst L; lia).
      symmetry in Hout. by apply lookup_ge_None_1 in Hout. }
    assert (L = 0 ∨ (L - 1) * N + w < n) as Hlow.
    { destruct (decide (L = 0)) as [?|Hpos]; [by left|]. right.
      pose proof (Hsamples (L - 1)) as Hin.
      destruct (lookup_lt_is_Some_2 (samples b) (L - 1)) as [y Hy];
        [subst L; lia|].
      rewrite Hy in Hin. symmetry in Hin. by apply lookup_lt_Some in Hin. }
    apply (Nat.div_unique _ _ _ (n + N - 1 - w - N * L)); nia. }
  intros w b Hb. destruct (Hsize w b Hb) as [Hw HL].
  pose proof (Nat.div_mod_eq n N) as Hdm.
  pose proof (Nat.mod_upper_bound n N ltac:(lia)) as Hmod.
  split; [done|]. split.
  - rewrite HL. split.
    + apply Nat.div_le_lower_bound; [lia|]. nia.
    + assert ((n + N - 1 - w) / N < n / N + 2); [|lia].
      apply Nat.Div0.div_lt_upper_bound. nia.
  - intros w' b' Hle Hb'. destruct (Hsize w' b' Hb') as [_ HL'].
    rewrite HL, HL'. apply Nat.Div0.div_le_mono. lia.
Qed.

Lemma processBatches_balanced_witness :
  let self := Scenario.pool 3 in
  let ids := ["a"; "b"; "c"; "d"] in
  let N := length (processes self) in
  let n := length ids in
  ∃ bs,
    processBatches self ids = Some bs
    ∧ ∀ w b, bs !! w = Some b →
        length (samples b) = (n + N - 1 - w) / N
        ∧ n / N ≤ length (samples b) ≤ n / N + 1
        ∧ ∀ w' b', w ≤ w' → bs !! w' = Some b' →
            length (samples b') ≤ length (samples b).
Proof.
  apply (processBatches_balanced (Scenario.pool 3) ["a"; "b"; "c"; "d"]).
  discriminate.
Defined.

(** X10: when every worker answers an evaluation with at least one object
    for each sample it was sent, no slot of the result of
    [processObjects] is undefined: the [i]-th slot holds an object whose id
    is [ids[i]], for every [i]. *)
Theorem processObjects_complete E ids self log :
  processes self ≠ [] →
  (∀ l p samples,
     ∃ o, awaitMatchingOutput "evaluationCompleted"
            (worker E l p (MsgEvaluate samples)) = Resolved o
          ∧ ∀ s, s ∈ samples → ∃ obj, obj ∈ objects o ∧ id obj = s) →
  ∃ res log',
    processObjects E ids self log = (Resolved res, log')
    ∧ length res = length ids
    ∧ ∀ i x, ids !! i = Some x →
        ∃ obj, res !! i = Some (JS.Stored obj) ∧ id obj = x.
Proof.
  intros Hne Hanswer.
  destruct (round_robin (processes self) ids Hne) as (bs & Hbs & Hlen & Hinv).
  set (N := length (processes self)) in *.
  assert (0 < N) as HN
    by (subst N; destruct (processes self); [done|simpl; lia]).
  assert (∃ rs, (async_map bs (evaluate_batch E) log).1 = Resolved rs)
    as [results Hres].
  { apply async_map_all_resolve. intros b l _. unfold evaluate_batch.
    destruct (decide (length (samples b) = 0)); [by eexists|].
    destruct (Hanswer l (process_of b) (samples b)) as (o & Ho & _).
    by exists o. }
  destruct (async_map bs (evaluate_batch E) log) as [fate log'] eqn:Hmap.
  simpl in Hres. subst fate.
  exists (map (JS.get (merge_results results)) ids), log'.
  split; [unfold processObjects, processBatches; by rewrite Hbs, Hmap|].
  split; [by rewrite length_map|].
  intros i x Hi. rewrite lookup_map, Hi. simpl.
  pose proof (Nat.mod_upper_bound i N ltac:(lia)) as Hmod.
  destruct (lookup_lt_is_Some_2 (processes self) (i mod N) Hmod) as [p Hp].
  destruct (Hinv _ _ Hp) as (b & Hb & _ & Hsamples).
  assert (x ∈ samples b) as Hx.
  { apply list_elem_of_lookup. exists (i / N). rewrite Hsamples.
    pose proof (Nat.div_mod_eq i N).
    by replace (i / N * N + i mod N) with i by lia. }
  apply async_map_resolved in Hmap.
  destruct (Forall2_lookup_l _ _ _ _ _ Hmap Hb) as (r & Hr & l & Hl).
  unfold evaluate_batch in Hl.
  destruct (decide (length (samples b) = 0)) as [Hzero|_].
  { apply nil_length_inv in Hzero. rewrite Hzero in Hx.
    by apply elem_of_nil in Hx. }
  destruct (Hanswer l (process_of b) (samples b)) as (o & Ho & Hobjs).
  simpl in Hl. assert (o = r) as -> by congruence.
  destruct (Hobjs x Hx) as (obj & Hobj & Hid).
  rewrite get_merge_results.
  assert (obj ∈ filter (λ o, id o = x) (returned results)) as Hin.
  { apply list_elem_of_filter. split; [done|].
    apply elem_of_concat_objects. exists r. split; [|done].
    apply list_elem_of_lookup. by exists (i mod N). }
  destruct (last (filter (λ o, id o = x) (returned results)))
    as [obj'|] eqn:Hlast.
  - exists obj'. split; [done|]. by apply last_filter_id in Hlast as [? _].
  - apply last_None in Hlast. rewrite Hlast in Hin.
    by apply elem_of_nil in Hin.
Qed.

Lemma processObjects_complete_witness :
  let ids := ["a"; "b"; "a"; "c"; "d"] in
  ∃ res log',
    processObjects Scenario.calm ids (Scenario.pool 2) [] = (Resolved res, log')
    ∧ length res = length ids
    ∧ ∀ i x, ids !! i = Some x →
        ∃ obj, res !! i = Some (JS.Stored obj) ∧ id obj = x.
Proof.
  apply (processObjects_complete Scenario.calm ["a"; "b"; "a"; "c"; "d"]
           (Scenario.pool 2) []).
  - discriminate.
  - intros l p samples. eexists. split; [reflexivity|].
    intros s Hs. exists (Object s "evaluated"). split; [|done]. simpl.
    apply list_elem_of_In, in_map_iff. exists s. split; [done|].
    by apply list_elem_of_In.
Defined.

(** X11: [processObjects] has no partial result.  When the exchange with
    the process that holds [ids[i]] fails, the whole call is rejected and
    no object is delivered, not even those the other workers returned; the
    evaluate message has all the same been written to every bucket that is
    not empty. *)
Theorem processObjects_one_failure_rejects E ids self log i x p :
  ids !! i = Some x →
  processes self !! (i mod length (processes self)) = Some p →
  (∀ l samples,
     ∃ e, awaitMatchingOutput "evaluationCompleted"
            (worker E l p (MsgEvaluate samples)) = Rejected e) →
  ∃ e bs,
    processBatches self ids = Some bs
    ∧ processObjects E ids self log
      = (Rejected e,
         log ++ map evaluate_write (filter (λ b, samples b ≠ []) bs)).
Proof.
  intros Hi Hp Hfails.
  assert (processes self ≠ []) as Hne
    by (intros Hnil; by rewrite Hnil in Hp).
  destruct (round_robin (processes self) ids Hne) as (bs & Hbs & Hlen & Hinv).
  set (N := length (processes self)) in *.
  destruct (Hinv _ _ Hp) as (b & Hb & Hproc & Hsamples).
  assert (samples b ≠ []) as Hnonempty.
  { intros Hnil. pose proof (Hsamples (i / N)) as Hk.
    assert (0 < N) as HN
      by (subst N; destruct (processes self); [done|simpl; lia]).
    pose proof (Nat.div_mod_eq i N).
    replace (i / N * N + i mod N) with i in Hk by lia.
    by rewrite Hnil, Hi in Hk. }
  destruct (async_map_one_rejects (evaluate_batch E) bs log b) as [e He].
  { apply list_elem_of_lookup. by exists (i mod N). }
  { intros l. unfold evaluate_batch.
    destruct (decide (length (samples b) = 0)) as [Hz|_].
    - by apply nil_length_inv in Hz.
    - rewrite Hproc. apply Hfails. }
  exists e, bs. split; [done|].
  pose proof (processObjects_log E ids self log bs Hbs) as Hlog.
  unfold processObjects, processBatches in *. rewrite Hbs in *.
  destruct (async_map bs (evaluate_batch E) log) as [fate log'].
  simpl in He. subst fate. simpl in Hlog. by subst log'.
Qed.

Lemma processObjects_one_failure_rejects_witness :
  ∃ e bs,
    processBatches (Scenario.pool 3) ["a"; "b"; "c"; "d"] = Some bs
    ∧ processObjects Cases.second_worker_fails_evaluation
        ["a"; "b"; "c"; "d"] (Scenario.pool 3) []
      = (Rejected e,
         [] ++ map evaluate_write (filter (λ b, samples b ≠ []) bs)).
Proof.
  apply (processObjects_one_failure_rejects
           Cases.second_worker_fails_evaluation ["a"; "b"; "c"; "d"]
           (Scenario.pool 3) [] 1 "b" (Process 1)).
  - reflexivity.
  - reflexivity.
  - intros l samples. by exists "read ECONNRESET".
Defined.

(** ** More on extractNetworkDiagrams *)

Lemma waited_app l1 l2 : waited (l1 ++ l2) = waited l1 + waited l2.
Proof.
  induction l1 as [|ev l1 IH]; simpl; [done|]. destruct ev; lia.
Qed.

Lemma waited_exec dir files :
  waited (map (λ f, EvExec f dir maxBufferSize) files) = 0.
Proof. induction files as [|f files IH]; [done|]. exact IH. Qed.

Lemma exec_events dir files :
  Forall is_diagram_event (map (λ f, EvExec f dir maxBufferSize) files).
Proof. induction files as [|f files IH]; constructor; done. Qed.

Lemma waited_rounds dir ms k :
  waited (concat (replicate k [EvReaddir dir; EvSetTimeout ms])) = k * ms.
Proof. induction k as [|k IH]; simpl; [done|]. rewrite IH. lia. Qed.

Lemma retry_loop_first_success {A} (task : io A) more log r log' :
  task log = (Resolved r, log') → retry_loop more task log = (Resolved r, log').
Proof. intros H. destruct more; simpl; by rewrite H. Qed.

Lemma retry_loop_skip_empty_rounds E self k :
  ∀ more log,
    k ≤ more →
    (∀ j, j < k →
       ∃ files,
         readdir E
           (log ++ concat (replicate j [EvReaddir (scriptFolder self);
                                        EvSetTimeout timeoutBetweenRetries]))
           (scriptFolder self) = inr files
         ∧ List.filter is_dot_file files = []) →
    retry_loop more (poll_diagrams E self) log
    = retry_loop (more - k) (poll_diagrams E self)
        (log ++ concat (replicate k [EvReaddir (scriptFolder self);
                                     EvSetTimeout timeoutBetweenRetries])).
Proof.
  induction k as [|k IH]; intros more log Hk Hempty.
  - simpl. by rewrite app_nil_r, Nat.sub_0_r.
  - destruct more as [|more]; [lia|].
    destruct (Hempty 0) as (files & Hdir & Hf); [lia|].
    simpl in Hdir. rewrite app_nil_r in Hdir.
    cbn [retry_loop]. rewrite (poll_no_diagrams E self log files) by done.
    rewrite IH; [|lia|].
    + simpl. by rewrite <- app_assoc.
    + intros j Hj. destruct (Hempty (S j)) as (files' & Hdir' & Hf'); [lia|].
      exists files'. split; [|done]. rewrite <- Hdir'. f_equal.
      by rewrite <- app_assoc.
Qed.

Lemma poll_renders E self log files :
  readdir E log (scriptFolder self) = inr files →
  List.filter is_dot_file files ≠ [] →
  (∀ f l, f ∈ List.filter is_dot_file files → ∃ out, exec_dot E l f = inr out) →
  ∃ res,
    poll_diagrams E self log
    = (Resolved res,
       log ++ EvReaddir (scriptFolder self)
           :: map (λ f, EvExec f (scriptFolder self) maxBufferSize)
                (List.filter is_dot_file files))
    ∧ map file res = List.filter is_dot_file files
    ∧ Forall
        (λ d, ∃ l out,
           exec_dot E l (file d) = inr out ∧ data d = base64 E out)
        res.
Proof.
  intros Hdir Hsome Hok. unfold poll_diagrams. rewrite Hdir.
  destruct (decide (length (List.filter is_dot_file files) = 0)) as [Hz|_];
    [by apply nil_length_inv in Hz|].
  set (dotFiles := List.filter is_dot_file files) in *.
  destruct (async_map_all_resolve (render E self) dotFiles
              (log ++ [EvReaddir (scriptFolder self)])) as [res Hres].
  { intros f l Hf. unfold render. simpl.
    destruct (Hok f l Hf) as [out ->]. by eexists. }
  pose proof (launch_all_render_log E self dotFiles
                (log ++ [EvReaddir (scriptFolder self)])) as Hlog.
  destruct (async_map dotFiles (render E self) _) as [fate log'] eqn:Hmap.
  simpl in Hres. subst fate. exists res.
  pose proof Hmap as Hall. apply async_map_resolved, rendered_all in Hall.
  unfold async_map in Hmap.
  destruct (launch_all dotFiles (render E self) _) as [fates log2].
  simpl in Hlog. simplify_eq. rewrite <- app_assoc. done.
Qed.

(** X12: the polling stops at the first listing that holds diagram files.
    When the first [k < 100] listings hold none, the next one holds some
    and the renderer succeeds on each of them, [extractNetworkDiagrams]
    resolves with one entry per diagram file of that listing, in listing
    order, each holding the file name and the base64 of the renderer's
    output; it has then listed the folder [k + 1] times, waited [k] times
    150 ms, and run the renderer once on every diagram file. *)
Theorem extractNetworkDiagrams_first_diagrams E self log k files :
  let round := [EvReaddir (scriptFolder self); EvSetTimeout 150] in
  let dotFiles := List.filter is_dot_file files in
  k < 100 →
  (∀ j, j < k →
     ∃ fs,
       readdir E (log ++ concat (replicate j round)) (scriptFolder self)
       = inr fs
       ∧ List.filter is_dot_file fs = []) →
  readdir E (log ++ concat (replicate k round)) (scriptFolder self)
  = inr files →
  dotFiles ≠ [] →
  (∀ f l, f ∈ dotFiles → ∃ out, exec_dot E l f = inr out) →
  ∃ res added,
    extractNetworkDiagrams E self log = (Resolved res, log ++ added)
    ∧ added
      = concat (replicate k round)
          ++ EvReaddir (scriptFolder self)
             :: map (λ f, EvExec f (scriptFolder self) maxBufferSize) dotFiles
    ∧ map file res = dotFiles
    ∧ Forall
        (λ d, ∃ l out,
           exec_dot E l (file d) = inr out ∧ data d = base64 E out)
        res
    ∧ polls added = k + 1
    ∧ waited added = k * 150.
Proof.
  intros round dotFiles Hk Hempty Hdir Hsome Hok.
  assert (∃ fs, readdir E log (scriptFolder self) = inr fs) as [fs Hfirst].
  { destruct k as [|k].
    - exists files. simpl in Hdir. by rewrite app_nil_r in Hdir.
    - destruct (Hempty 0) as (fs & Hfs & _); [lia|]. exists fs.
      simpl in Hfs. by rewrite app_nil_r in Hfs. }
  rewrite (extractNetworkDiagrams_listed E self log fs Hfirst).
  rewrite (retry_loop_skip_empty_rounds E self k 99 log) by (lia || done).
  fold round.
  destruct (poll_renders E self _ files Hdir Hsome Hok)
    as (res & Hpoll & Hfiles & Hall).
  rewrite (retry_loop_first_success _ _ _ _ _ Hpoll).
  exists res. eexists. split; [by rewrite <- app_assoc|].
  split; [done|]. split; [done|]. split; [done|]. split.
  - rewrite polls_app. change (EvReaddir ?d :: ?l) with ([EvReaddir d] ++ l).
    rewrite polls_app, polls_exec.
    assert (polls (concat (replicate k round)) = k) as ->; [|simpl; lia].
    clear. induction k as [|k IH]; simpl; [done|].
    unfold polls in *. simpl. by rewrite IH.
  - rewrite waited_app. simpl. rewrite waited_exec.
    unfold round. rewrite waited_rounds. lia.
Qed.

Lemma extractNetworkDiagrams_first_diagrams_witness :
  let E := Cases.diagrams_appear_late in
  let self := Scenario.pool 1 in
  let round := [EvReaddir (scriptFolder self); EvSetTimeout 150] in
  let dotFiles :=
    List.filter is_dot_file ["net.dot"; "TrainingScript.lua"; "criterion.dot"]
  in
  ∃ res added,
    extractNetworkDiagrams E self [] = (Resolved res, [] ++ added)
    ∧ added
      = concat (replicate 2 round)
          ++ EvReaddir (scriptFolder self)
             :: map (λ f, EvExec f (scriptFolder self) maxBufferSize) dotFiles
    ∧ map file res = dotFiles
    ∧ Forall
        (λ d, ∃ l out,
           exec_dot E l (file d) = inr out ∧ data d = base64 E out)
        res
    ∧ polls added = 2 + 1
    ∧ waited added = 2 * 150.
Proof.
  apply (extractNetworkDiagrams_first_diagrams Cases.diagrams_appear_late
           (Scenario.pool 1) [] 2
           ["net.dot"; "TrainingScript.lua"; "criterion.dot"]).
  - lia.
  - intros [|[|j]] Hj; [| |lia]; exists ["TrainingScript.lua"];
      split; reflexivity.
  - reflexivity.
  - discriminate.
  - intros f l _. by eexists.
Defined.

Lemma retry_loop_unreadable E self more :
  ∀ log,
    (∀ j, j ≤ more →
       ∃ err,
         readdir E (log ++ replicate j (EvReaddir (scriptFolder self)))
           (scriptFolder self) = inl err) →
    ∃ e,
      retry_loop more (poll_diagrams E self) log
      = (Rejected e,
         log ++ replicate (S more) (EvReaddir (scriptFolder self)))
      ∧ readdir E (log ++ replicate more (EvReaddir (scriptFolder self)))
          (scriptFolder self) = inl e.
Proof.
  induction more as [|more IH]; intros log Hfail.
  - destruct (Hfail 0) as [err Herr]; [lia|]. exists err.
    simpl in *. rewrite app_nil_r in Herr. unfold poll_diagrams.
    rewrite Herr. split; [done|]. by rewrite app_nil_r.
  - destruct (Hfail 0) as [err Herr]; [lia|].
    simpl in Herr. rewrite app_nil_r in Herr.
    cbn [retry_loop]. unfold poll_diagrams at 1. rewrite Herr.
    destruct (IH (log ++ [EvReaddir (scriptFolder self)])) as (e & Hloop & He).
    + intros j Hj. destruct (Hfail (S j)) as [err' Herr']; [lia|].
      exists err'. rewrite <- Herr'. f_equal. by rewrite <- app_assoc.
    + exists e. rewrite Hloop. split.
      * by rewrite <- app_assoc.
      * rewrite <- He. f_equal. by rewrite <- app_assoc.
Qed.

(** X13: the 150 ms delay belongs to the empty listing only.  When the
    script folder cannot be listed, [extractNetworkDiagrams] lists it again
    at once: 100 listings with no timer between them, after which the call
    is rejected with the error of the last listing.  With no script folder
    at all the listing throws instead: the call is rejected with that
    error after the one call, and nothing is retried. *)
Theorem extractNetworkDiagrams_unreadable_folder E self log :
  let listing := EvReaddir (scriptFolder self) in
  (∀ j, j < 100 →
     ∃ err,
       readdir E (log ++ replicate j listing) (scriptFolder self) = inl err) →
  (scriptFolder self ≠ None →
   ∃ e,
     extractNetworkDiagrams E self log
     = (Rejected e, log ++ replicate 100 listing)
     ∧ readdir E (log ++ replicate 99 listing) (scriptFolder self) = inl e)
  ∧ (scriptFolder self = None →
     ∃ e,
       extractNetworkDiagrams E self log = (Rejected e, log ++ [listing])
       ∧ readdir E log (scriptFolder self) = inl e)
  ∧ polls (replicate 100 listing) = 100
  ∧ waited (replicate 100 listing) = 0.
Proof.
  intros listing Hfail. split; [|split; [|split; by vm_compute]].
  - intros Hfolder.
    destruct (scriptFolder self) as [dir|] eqn:Hdir; [|done].
    destruct (retry_loop_unreadable E self 99 log) as (e & Hloop & He).
    { intros j Hj. rewrite Hdir. apply Hfail. lia. }
    exists e. rewrite (extractNetworkDiagrams_in_folder E self log dir Hdir).
    rewrite Hdir in Hloop, He. by split.
  - intros Hnull. destruct (Hfail 0) as [e He]; [lia|].
    simpl in He. rewrite app_nil_r in He. exists e. split; [|done].
    subst listing. rewrite Hnull in *.
    by apply extractNetworkDiagrams_null_folder.
Qed.

Lemma extractNetworkDiagrams_unreadable_folder_witness :
  let self := Scenario.pool 1 in
  let listing := EvReaddir (scriptFolder self) in
  (scriptFolder self ≠ None →
   ∃ e,
     extractNetworkDiagrams Cases.folder_unreadable self []
     = (Rejected e, [] ++ replicate 100 listing)
     ∧ readdir Cases.folder_unreadable ([] ++ replicate 99 listing)
         (scriptFolder self) = inl e)
  ∧ (scriptFolder self = None →
     ∃ e,
       extractNetworkDiagrams Cases.folder_unreadable self []
       = (Rejected e, [] ++ [listing])
       ∧ readdir Cases.folder_unreadable [] (scriptFolder self) = inl e)
  ∧ polls (replicate 100 listing) = 100
  ∧ waited (replicate 100 listing) = 0.
Proof.
  apply (extractNetworkDiagrams_unreadable_folder Cases.folder_unreadable
           (Scenario.pool 1) []).
  intros j _. by eexists.
Defined.

Lemma poll_diagrams_events E self log :
  ∃ added,
    (poll_diagrams E self log).2 = log ++ added
    ∧ Forall is_diagram_event added
    ∧ waited added ≤ 150.
Proof.
  unfold poll_diagrams.
  destruct (readdir E log (scriptFolder self)) as [err|files].
  - exists [EvReaddir (scriptFolder self)]. split; [done|].
    split; [by constructor|simpl; lia].
  - destruct (decide (length (List.filter is_dot_file files) = 0)).
    + exists [EvReaddir (scriptFolder self); EvSetTimeout timeoutBetweenRetries].
      simpl. rewrite <- app_assoc. split; [done|].
      split; [by repeat constructor|]. unfold timeoutBetweenRetries. lia.
    + unfold async_map.
      pose proof (launch_all_render_log E self
                    (List.filter is_dot_file files)
                    (log ++ [EvReaddir (scriptFolder self)])) as Hlog.
      destruct (launch_all _ _ _) as [fates log']. simpl in *. subst log'.
      eexists. rewrite <- app_assoc. split; [reflexivity|]. split.
      * constructor; [done|]. apply exec_events.
      * simpl. rewrite waited_exec. lia.
Qed.

Lemma retry_loop_events E self more :
  ∀ log,
    ∃ added,
      (retry_loop more (poll_diagrams E self) log).2 = log ++ added
      ∧ Forall is_diagram_event added
      ∧ waited added ≤ S more * 150.
Proof.
  induction more as [|more IH]; intros log; simpl;
    destruct (poll_diagrams_events E self log) as (added & Hlog & Hkind & Hw);
    destruct (poll_diagrams E self log) as [[res|e|] log1]; simpl in *;
    subst log1; try (exists added; split; [done|]; split; [done|lia]).
  destruct (IH (log ++ added)) as (added' & Hlog' & Hkind' & Hw').
  exists (added ++ added'). rewrite Hlog', waited_app, app_assoc.
  split; [done|]. split; [by apply Forall_app|lia].
Qed.

(** X14: whatever the host does, [extractNetworkDiagrams] only lists the
    script folder, arms timers and runs the renderer: it never spawns,
    kills or writes to a worker; and the timers it arms add up to 100 times
    150 ms, 15 seconds, at most. *)
Theorem extractNetworkDiagrams_budget E self log :
  ∃ added,
    (extractNetworkDiagrams E self log).2 = log ++ added
    ∧ Forall is_diagram_event added
    ∧ waited added ≤ 100 * 150
    ∧ (∀ p m expected, EvWrite p m expected ∉ added)
    ∧ (∀ p, EvKill p ∉ added).
Proof.
  destruct (extractNetworkDiagrams_runs E self log) as (more & Hmore & ->).
  destruct (retry_loop_events E self more log) as (added & Hlog & Hkind & Hw).
  exists added. split; [exact Hlog|]. split; [done|]. split; [lia|].
  rewrite Forall_forall in Hkind.
  split; intros; intros Hin; by apply Hkind in Hin.
Qed.

(** ** generateCode *)

Lemma each_loop_is_each_in {A B} (items : list A) (f : A → io B) log :
  each_loop items f log = each_in items f log.
Proof.
  revert log. induction items as [|x items IH]; intros log; simpl; [done|].
  destruct (f x log) as [[b|e|] log']; [apply IH|done|done].
Qed.

Lemma written_app l1 l2 :
  CodeGeneration.written (l1 ++ l2)
  = CodeGeneration.written l1 ++ CodeGeneration.written l2.
Proof.
  induction l1 as [|ev l1 IH]; simpl; [done|]. destruct ev; simpl; congruence.
Qed.

Lemma read_from_lib_app l1 l2 :
  CodeGeneration.read_from_lib (l1 ++ l2)
  = CodeGeneration.read_from_lib l1 ++ CodeGeneration.read_from_lib l2.
Proof.
  induction l1 as [|ev l1 IH]; simpl; [done|]. destruct ev; simpl; congruence.
Qed.

Lemma each_in_write_cons F folder f files n log :
  each_in (f :: files) (CodeGeneration.write_generated_file F folder) (n, log)
  = match CodeGeneration.writeFile F log folder
            (CodeGeneration.path f) (CodeGeneration.data f) with
    | None =>
        each_in files (CodeGeneration.write_generated_file F folder)
          (S n,
           log ++ [CodeGeneration.FsWriteFile folder
                     (CodeGeneration.path f) (CodeGeneration.data f)])
    | Some err =>
        (Rejected err,
         (S n,
          log ++ [CodeGeneration.FsWriteFile folder
                    (CodeGeneration.path f) (CodeGeneration.data f)]))
    end.
Proof.
  simpl. unfold CodeGeneration.write_generated_file at 1.
  by destruct (CodeGeneration.writeFile F log folder _ _).
Qed.

Lemma each_in_copy_cons F folder name lib n log :
  each_in (name :: lib) (CodeGeneration.copy_library_file F folder) (n, log)
  = match CodeGeneration.lib_readFile F log name with
    | inl err => (Rejected err, (n, log ++ [CodeGeneration.FsReadLib name]))
    | inr buffer =>
        match CodeGeneration.writeFile F
                (log ++ [CodeGeneration.FsReadLib name]) folder name buffer
        with
        | None =>
            each_in lib (CodeGeneration.copy_library_file F folder)
              (S n,
               (log ++ [CodeGeneration.FsReadLib name])
                 ++ [CodeGeneration.FsWriteFile folder name buffer])
        | Some err =>
            (Rejected err,
             (S n,
              (log ++ [CodeGeneration.FsReadLib name])
                ++ [CodeGeneration.FsWriteFile folder name buffer]))
        end
    end.
Proof.
  simpl. unfold CodeGeneration.copy_library_file at 1.
  destruct (CodeGeneration.lib_readFile F log name) as [err|buffer]; [done|].
  by destruct (CodeGeneration.writeFile F _ folder name buffer).
Qed.

(** The writes of the generated files when each of them succeeds. *)
Lemma write_generated_all F folder files :
  (∀ l f, f ∈ files →
     CodeGeneration.writeFile F l folder
       (CodeGeneration.path f) (CodeGeneration.data f) = None) →
  ∀ n log,
    each_in files (CodeGeneration.write_generated_file F folder) (n, log)
    = (Resolved (),
       (n + length files,
        log ++ map (λ f, CodeGeneration.FsWriteFile folder
                           (CodeGeneration.path f) (CodeGeneration.data f))
                 files)).
Proof.
  induction files as [|f files IH]; intros Hok n log.
  - simpl. by rewrite Nat.add_0_r, app_nil_r.
  - rewrite each_in_write_cons, Hok by apply list_elem_of_here.
    assert (∀ l g, g ∈ files →
              CodeGeneration.writeFile F l folder
                (CodeGeneration.path g) (CodeGeneration.data g) = None)
      as Hrest by (intros l g Hg; by apply Hok, list_elem_of_further).
    rewrite (IH Hrest). f_equal.
    f_equal; [simpl; lia|by rewrite <- app_assoc].
Qed.

(** The copy of the library when every read and write succeeds. *)
Lemma copy_library_all F folder lib :
  (∀ l name, ∃ buffer, CodeGeneration.lib_readFile F l name = inr buffer) →
  (∀ l dir name contents,
     CodeGeneration.writeFile F l dir name contents = None) →
  ∀ n log,
    ∃ added,
      each_in lib (CodeGeneration.copy_library_file F folder) (n, log)
      = (Resolved (), (n + length lib, log ++ added))
      ∧ CodeGeneration.written added = lib
      ∧ CodeGeneration.read_from_lib added = lib.
Proof.
  intros Hread Hwrite. induction lib as [|name lib IH]; intros n log.
  - exists []. simpl. by rewrite Nat.add_0_r, app_nil_r.
  - rewrite each_in_copy_cons.
    destruct (Hread log name) as [buffer ->]. rewrite Hwrite.
    destruct (IH (S n) ((log ++ [CodeGeneration.FsReadLib name])
                          ++ [CodeGeneration.FsWriteFile folder name buffer]))
      as (added & Heach & Hw & Hr).
    exists (CodeGeneration.FsReadLib name
              :: CodeGeneration.FsWriteFile folder name buffer :: added).
    rewrite Heach. simpl. rewrite Hw, Hr. split; [|done].
    f_equal. f_equal; [lia|by rewrite <- !app_assoc].
Qed.

(** X15: when the temporary folder is created, the generator returns
    [files], and every read and write succeeds, [generateCode] resolves with
    the number of generated files plus twice the number of library files:
    two of its three tasks have the same text, so every file of [lib/lua] is
    read and written twice.  The script folder becomes the temporary folder,
    whatever folder the constructor was given. *)
Theorem generateCode_counts_library_twice F self log folder files lib :
  CodeGeneration.temp_mkdir F log "electric-brain-model" = inr folder →
  CodeGeneration.generateFiles F
    (log ++ [CodeGeneration.FsMkdir "electric-brain-model"]) = inr files →
  (∀ l, CodeGeneration.lib_readdirSync F l = lib) →
  (∀ l name, ∃ buffer, CodeGeneration.lib_readFile F l name = inr buffer) →
  (∀ l dir name contents,
     CodeGeneration.writeFile F l dir name contents = None) →
  ∃ added,
    CodeGeneration.generateCode F self log
    = (Resolved (length files + 2 * length lib),
       set_scriptFolder self (Some folder),
       log ++ added)
    ∧ CodeGeneration.written added
      = map CodeGeneration.path files ++ lib ++ lib
    ∧ CodeGeneration.read_from_lib added = lib ++ lib.
Proof.
  intros Hmk Hgen Hlib Hread Hwrite.
  unfold CodeGeneration.generateCode, CodeGeneration.writeGeneratedFiles.
  rewrite Hmk, Hgen. cbn [scriptFolder set_scriptFolder].
  rewrite write_generated_all by (intros; apply Hwrite).
  unfold CodeGeneration.writeLibraryFiles,
    CodeGeneration.writeElectricBrainLibrary.
  cbn [scriptFolder set_scriptFolder]. rewrite Hlib.
  match goal with
  | |- context [each_in lib _ (?n, ?l)] =>
      destruct (copy_library_all F (Some folder) lib Hread Hwrite n l)
        as (added1 & -> & Hw1 & Hr1)
  end.
  rewrite Hlib.
  match goal with
  | |- context [each_in lib _ (?n, ?l)] =>
      destruct (copy_library_all F (Some folder) lib Hread Hwrite n l)
        as (added2 & -> & Hw2 & Hr2)
  end.
  eexists. split.
  - f_equal; [f_equal; f_equal; lia|]. rewrite <- !app_assoc. reflexivity.
  - rewrite !written_app, !read_from_lib_app.
    rewrite Hw1, Hw2, Hr1, Hr2.
    assert (CodeGeneration.written
              (map (λ f, CodeGeneration.FsWriteFile (Some folder)
                           (CodeGeneration.path f) (CodeGeneration.data f))
                 files) = map CodeGeneration.path files
            ∧ CodeGeneration.read_from_lib
                (map (λ f, CodeGeneration.FsWriteFile (Some folder)
                             (CodeGeneration.path f) (CodeGeneration.data f))
                   files) = []) as [-> ->].
    { clear. induction files as [|f files [IH1 IH2]]; simpl; [done|].
      by rewrite IH1, IH2. }
    done.
Qed.

Lemma generateCode_counts_library_twice_witness :
  let files := [CodeGeneration.FileRecord "TrainingScript.lua" "-- training";
                CodeGeneration.FileRecord "Network.lua" "-- network"] in
  let lib := ["json.lua"; "underscore.lua"] in
  ∃ added,
    CodeGeneration.generateCode CodeGeneration.sound
      (constructor (Some "/given/folder")) []
    = (Resolved (length files + 2 * length lib),
       set_scriptFolder (constructor (Some "/given/folder"))
         (Some "/tmp/electric-brain-model"),
       [] ++ added)
    ∧ CodeGeneration.written added
      = map CodeGeneration.path files ++ lib ++ lib
    ∧ CodeGeneration.read_from_lib added = lib ++ lib.
Proof.
  apply (generateCode_counts_library_twice CodeGeneration.sound
           (constructor (Some "/given/folder")) []
           "/tmp/electric-brain-model").
  - reflexivity.
  - reflexivity.
  - reflexivity.
  - intros l name. by eexists.
  - reflexivity.
Defined.

(** X16: a write of a generated file that fails is never reported.  When
    one of the generated files cannot be written, the promise of
    [generateCode] neither resolves nor rejects: the files up to the failing
    one have been written, the script folder is already the temporary
    folder, and the library is never copied. *)
Theorem generateCode_failed_write_never_settles F self log folder files f :
  CodeGeneration.temp_mkdir F log "electric-brain-model" = inr folder →
  CodeGeneration.generateFiles F
    (log ++ [CodeGeneration.FsMkdir "electric-brain-model"]) = inr files →
  f ∈ files →
  (∀ l, ∃ err,
     CodeGeneration.writeFile F l (Some folder)
       (CodeGeneration.path f) (CodeGeneration.data f) = Some err) →
  ∃ k,
    k < length files
    ∧ CodeGeneration.generateCode F self log
      = (Pending,
         set_scriptFolder self (Some folder),
         log ++ [CodeGeneration.FsMkdir "electric-brain-model";
                 CodeGeneration.FsGenerateFiles]
             ++ map (λ f, CodeGeneration.FsWriteFile (Some folder)
                            (CodeGeneration.path f) (CodeGeneration.data f))
                  (take (S k) files)).
Proof.
  intros Hmk Hgen Hf Hfail.
  unfold CodeGeneration.generateCode, CodeGeneration.writeGeneratedFiles.
  rewrite Hmk, Hgen. cbn [scriptFolder set_scriptFolder].
  assert (∀ n l,
            ∃ err k,
              k < length files
              ∧ each_in files
                  (CodeGeneration.write_generated_file F (Some folder)) (n, l)
                = (Rejected err,
                   (n + S k,
                    l ++ map (λ f, CodeGeneration.FsWriteFile (Some folder)
                                     (CodeGeneration.path f)
                                     (CodeGeneration.data f))
                           (take (S k) files)))) as Hstop.
  { clear -Hf Hfail. induction files as [|g files IH]; intros n l.
    - by apply elem_of_nil in Hf.
    - rewrite each_in_write_cons.
      destruct (CodeGeneration.writeFile F l (Some folder) _ _)
        as [err|] eqn:Hw.
      + exists err, 0. simpl. split; [lia|]. by rewrite Nat.add_1_r.
      + apply elem_of_cons in Hf as [->|Hf].
        { destruct (Hfail l) as [err Herr]. congruence. }
        destruct (IH Hf (S n)
                    (l ++ [CodeGeneration.FsWriteFile (Some folder)
                             (CodeGeneration.path g) (CodeGeneration.data g)]))
          as (err & k & Hk & ->).
        exists err, (S k). split; [simpl; lia|]. f_equal.
        f_equal; [lia|by rewrite <- app_assoc]. }
  destruct (Hstop 0 ((log ++ [CodeGeneration.FsMkdir "electric-brain-model"])
                       ++ [CodeGeneration.FsGenerateFiles]))
    as (err & k & Hk & ->).
  exists k. split; [done|]. by rewrite <- !app_assoc.
Qed.

Lemma generateCode_failed_write_never_settles_witness :
  ∃ k,
    k < length [CodeGeneration.FileRecord "TrainingScript.lua" "-- training";
                CodeGeneration.FileRecord "Network.lua" "-- network"]
    ∧ CodeGeneration.generateCode CodeGeneration.disk_full_on_network
        (constructor None) []
      = (Pending,
         set_scriptFolder (constructor None) (Some "/tmp/electric-brain-model"),
         [] ++ [CodeGeneration.FsMkdir "electric-brain-model";
                CodeGeneration.FsGenerateFiles]
            ++ map (λ f, CodeGeneration.FsWriteFile
                           (Some "/tmp/electric-brain-model")
                           (CodeGeneration.path f) (CodeGeneration.data f))
                 (take (S k)
                    [CodeGeneration.FileRecord "TrainingScript.lua"
                       "-- training";
                     CodeGeneration.FileRecord "Network.lua" "-- network"])).
Proof.
  apply (generateCode_failed_write_never_settles
           CodeGeneration.disk_full_on_network (constructor None) []
           "/tmp/electric-brain-model" _
           (CodeGeneration.FileRecord "Network.lua" "-- network")).
  - reflexivity.
  - reflexivity.
  - apply list_elem_of_further, list_elem_of_here.
  - intros l. by exists "ENOSPC".
Defined.

Lemma copy_library_stops F folder before name after err :
  (∀ l n, n ∈ before →
     ∃ buffer, CodeGeneration.lib_readFile F l n = inr buffer) →
  (∀ l, CodeGeneration.lib_readFile F l name = inl err) →
  (∀ l dir n contents, CodeGeneration.writeFile F l dir n contents = None) →
  ∀ n log,
    ∃ added,
      each_in (before ++ name :: after)
        (CodeGeneration.copy_library_file F folder) (n, log)
      = (Rejected err, (n + length before, log ++ added))
      ∧ CodeGeneration.written added = before
      ∧ CodeGeneration.read_from_lib added = before ++ [name].
Proof.
  intros Hread Hfail Hwrite.
  induction before as [|b before IH]; intros n log.
  - simpl app. rewrite each_in_copy_cons, Hfail.
    exists [CodeGeneration.FsReadLib name]. simpl.
    by rewrite Nat.add_0_r.
  - simpl app. rewrite each_in_copy_cons.
    destruct (Hread log b) as [buffer ->]; [apply list_elem_of_here|].
    rewrite Hwrite.
    destruct (IH (λ l n Hn, Hread l n (list_elem_of_further _ _ _ Hn)) (S n)
                ((log ++ [CodeGeneration.FsReadLib b])
                   ++ [CodeGeneration.FsWriteFile folder b buffer]))
      as (added & -> & Hw & Hr).
    exists (CodeGeneration.FsReadLib b
              :: CodeGeneration.FsWriteFile folder b buffer :: added).
    simpl. rewrite Hw, Hr. split; [|done].
    f_equal. f_equal; [lia|by rewrite <- !app_assoc].
Qed.

(** X17: a failure in the copy of the library, unlike a failed write of a
    generated file, rejects [generateCode].  When the generated files are
    written and a library file cannot be read, the promise rejects with the
    error of that read: the library files listed before it have been
    copied once, those after it are never read, and the third task never
    starts. *)
Theorem generateCode_library_failure_rejects F self log folder files
    before name after err :
  CodeGeneration.temp_mkdir F log "electric-brain-model" = inr folder →
  CodeGeneration.generateFiles F
    (log ++ [CodeGeneration.FsMkdir "electric-brain-model"]) = inr files →
  (∀ l, CodeGeneration.lib_readdirSync F l = before ++ name :: after) →
  (∀ l n, n ∈ before →
     ∃ buffer, CodeGeneration.lib_readFile F l n = inr buffer) →
  (∀ l, CodeGeneration.lib_readFile F l name = inl err) →
  (∀ l dir n contents, CodeGeneration.writeFile F l dir n contents = None) →
  ∃ added,
    CodeGeneration.generateCode F self log
    = (Rejected err, set_scriptFolder self (Some folder), log ++ added)
    ∧ CodeGeneration.written added = map CodeGeneration.path files ++ before
    ∧ CodeGeneration.read_from_lib added = before ++ [name].
Proof.
  intros Hmk Hgen Hlib Hread Hfail Hwrite.
  unfold CodeGeneration.generateCode, CodeGeneration.writeGeneratedFiles.
  rewrite Hmk, Hgen. cbn [scriptFolder set_scriptFolder].
  rewrite write_generated_all by (intros; apply Hwrite).
  unfold CodeGeneration.writeLibraryFiles.
  cbn [scriptFolder set_scriptFolder]. rewrite Hlib.
  match goal with
  | |- context [each_in _ _ (?n, ?l)] =>
      destruct (copy_library_stops F (Some folder) before name after err
                  Hread Hfail Hwrite n l) as (added & -> & Hw & Hr)
  end.
  eexists. split.
  - f_equal. rewrite <- !app_assoc. reflexivity.
  - rewrite !written_app, !read_from_lib_app, Hw, Hr.
    assert (CodeGeneration.written
              (map (λ f, CodeGeneration.FsWriteFile (Some folder)
                           (CodeGeneration.path f) (CodeGeneration.data f))
                 files) = map CodeGeneration.path files
            ∧ CodeGeneration.read_from_lib
                (map (λ f, CodeGeneration.FsWriteFile (Some folder)
                             (CodeGeneration.path f) (CodeGeneration.data f))
                   files) = []) as [-> ->].
    { clear. induction files as [|f files [IH1 IH2]]; simpl; [done|].
      by rewrite IH1, IH2. }
    done.
Qed.

Lemma generateCode_library_failure_rejects_witness :
  ∃ added,
    CodeGeneration.generateCode CodeGeneration.library_unreadable
      (constructor None) []
    = (Rejected "EACCES",
       set_scriptFolder (constructor None) (Some "/tmp/electric-brain-model"),
       [] ++ added)
    ∧ CodeGeneration.written added
      = map CodeGeneration.path
          [CodeGeneration.FileRecord "TrainingScript.lua" "-- training";
           CodeGeneration.FileRecord "Network.lua" "-- network"]
          ++ ["json.lua"]
    ∧ CodeGeneration.read_from_lib added = ["json.lua"] ++ ["underscore.lua"].
Proof.
  apply (generateCode_library_failure_rejects
           CodeGeneration.library_unreadable (constructor None) []
           "/tmp/electric-brain-model" _ ["json.lua"] "underscore.lua" []).
  - reflexivity.
  - reflexivity.
  - reflexivity.
  - intros l n [->|?%elem_of_nil]%elem_of_cons; [|done]. by eexists.
  - reflexivity.
  - reflexivity.
Defined.

(** X18: [generateCode] changes nothing of [self] but the script folder.
    When the temporary folder cannot be created the promise rejects with
    that error and [self] is untouched; once it is created the script
    folder is that temporary folder whatever happens next, also when the
    code generator throws, which rejects the promise before any file is
    written. *)
Theorem generateCode_frame F self log :
  let '(fate, self', log') := CodeGeneration.generateCode F self log in
  processes self' = processes self
  ∧ allLoadedEntries self' = allLoadedEntries self
  ∧ numProcesses self' = numProcesses self
  ∧ match CodeGeneration.temp_mkdir F log "electric-brain-model" with
    | inl err =>
        fate = Rejected err ∧ self' = self
        ∧ log' = log ++ [CodeGeneration.FsMkdir "electric-brain-model"]
    | inr folder =>
        scriptFolder self' = Some folder
        ∧ ∀ err,
            CodeGeneration.generateFiles F
              (log ++ [CodeGeneration.FsMkdir "electric-brain-model"])
            = inl err →
            fate = Rejected err
            ∧ log' = log ++ [CodeGeneration.FsMkdir "electric-brain-model";
                             CodeGeneration.FsGenerateFiles]
    end.
Proof.
  unfold CodeGeneration.generateCode, CodeGeneration.writeGeneratedFiles.
  destruct (CodeGeneration.temp_mkdir F log "electric-brain-model")
    as [err|folder]; [done|].
  destruct (CodeGeneration.generateFiles F _) as [err|files].
  { split_and!; try done. intros err' [= <-]. by rewrite <- app_assoc. }
  destruct (each_in files _ _) as [[u|e|] [n1 log1]];
    [|by split_and!..].
  destruct (CodeGeneration.writeLibraryFiles F _ _) as [[u2|e|] [n2 log2]];
    [|by split_and!..].
  destruct (CodeGeneration.writeElectricBrainLibrary F _ _)
    as [[u3|e|] [n3 log3]]; by split_and!.
Qed.

(** ** Statistics, checkpoints and prepared batches *)

Lemma each_in_exchange_cons H r expected p ps log :
  each_in (p :: ps) (λ q, Persistence.exchange H q r expected) log
  = match Persistence.awaitMatchingReply expected
            (Persistence.p_worker H log p r) with
    | Resolved _ =>
        each_in ps (λ q, Persistence.exchange H q r expected)
          (log ++ [Persistence.PWrite p r expected])
    | Rejected err => (Rejected err, log ++ [Persistence.PWrite p r expected])
    | Pending => (Pending, log ++ [Persistence.PWrite p r expected])
    end.
Proof.
  simpl. unfold Persistence.exchange at 1.
  by destruct (Persistence.awaitMatchingReply expected _).
Qed.

Lemma each_in_exchange_all H r expected ps :
  (∀ l p, p ∈ ps →
     ∃ rep, Persistence.awaitMatchingReply expected
              (Persistence.p_worker H l p r) = Resolved rep) →
  ∀ log,
    each_in ps (λ q, Persistence.exchange H q r expected) log
    = (Resolved (), log ++ map (λ p, Persistence.PWrite p r expected) ps).
Proof.
  induction ps as [|p ps IH]; intros Hok log.
  - simpl. by rewrite app_nil_r.
  - rewrite each_in_exchange_cons.
    destruct (Hok log p) as [rep ->]; [apply list_elem_of_here|].
    assert (∀ l q, q ∈ ps →
              ∃ rep, Persistence.awaitMatchingReply expected
                       (Persistence.p_worker H l q r) = Resolved rep)
      as Hrest by (intros l q Hq; by apply Hok, list_elem_of_further).
    rewrite (IH Hrest). simpl. by rewrite <- app_assoc.
Qed.

(** X19: saving then loading the checkpoint.  With a pool whose first
    process is [p0], a script folder, and workers that answer,
    [getTorchModelFileStream] asks [p0] alone to save, and only when [p0]
    has replied ["saved"] opens the stream on [model.t7] in the script
    folder; [loadModelFile] then asks every process of the pool, in order,
    to load, and resolves. *)
Theorem save_then_load H self log p0 others folder :
  processes self = p0 :: others →
  scriptFolder self = Some folder →
  (∀ l p,
     ∃ rep, Persistence.awaitMatchingReply "saved"
              (Persistence.p_worker H l p Persistence.ReqSave)
            = Resolved rep) →
  (∀ l p,
     ∃ rep, Persistence.awaitMatchingReply "loaded"
              (Persistence.p_worker H l p Persistence.ReqLoad)
            = Resolved rep) →
  let log1 :=
    log ++ [Persistence.PWrite p0 Persistence.ReqSave "saved";
            Persistence.PCreateReadStream folder "model.t7"] in
  Persistence.getTorchModelFileStream H self log
  = (Resolved (Persistence.ReadStream folder "model.t7"), log1)
  ∧ Persistence.loadModelFile H self log1
    = (Resolved (p0 :: others),
       log1 ++ map (λ p, Persistence.PWrite p Persistence.ReqLoad "loaded")
                 (p0 :: others)).
Proof.
  intros Hps Hfolder Hsave Hload log1. split.
  - unfold Persistence.getTorchModelFileStream, Persistence.exchange.
    rewrite Hps, Hfolder. simpl.
    destruct (Hsave log p0) as [rep ->]. subst log1.
    by rewrite <- app_assoc.
  - unfold Persistence.loadModelFile. rewrite Hps.
    rewrite each_in_exchange_all; [done|]. intros l p _. apply Hload.
Qed.

Lemma save_then_load_witness :
  let self := Scenario.pool 2 in
  let log1 :=
    [] ++ [Persistence.PWrite (Process 0) Persistence.ReqSave "saved";
           Persistence.PCreateReadStream "/tmp/electric-brain-model"
             "model.t7"] in
  Persistence.getTorchModelFileStream Persistence.obedient self []
  = (Resolved (Persistence.ReadStream "/tmp/electric-brain-model" "model.t7"),
     log1)
  ∧ Persistence.loadModelFile Persistence.obedient self log1
    = (Resolved [Process 0; Process 1],
       log1 ++ map (λ p, Persistence.PWrite p Persistence.ReqLoad "loaded")
                 [Process 0; Process 1]).
Proof.
  apply (save_then_load Persistence.obedient (Scenario.pool 2) []
           (Process 0) [Process 1] "/tmp/electric-brain-model").
  - reflexivity.
  - reflexivity.
  - intros l p. by eexists.
  - intros l p. by eexists.
Defined.


(** X21: on an empty pool the four methods fail in three different ways:
    [getInternalStatistics] and [getTorchModelFileStream] return a promise
    that rejects, [prepareBatch] throws before returning a promise, and
    [loadModelFile] resolves, having loaded nothing.  None writes to a
    worker or opens a stream. *)
Theorem persistence_on_empty_pool H self log ids fileName :
  processes self = [] →
  (∃ err, Persistence.getInternalStatistics H self log = (Rejected err, log))
  ∧ (∃ err,
       Persistence.getTorchModelFileStream H self log = (Rejected err, log))
  ∧ (∃ err, Persistence.prepareBatch H ids fileName self log = inl err)
  ∧ Persistence.loadModelFile H self log = (Resolved [], log).
Proof.
  intros Hempty.
  unfold Persistence.getInternalStatistics,
    Persistence.getTorchModelFileStream, Persistence.prepareBatch,
    Persistence.loadModelFile.
  rewrite Hempty. simpl. split_and!; try done; by eexists.
Qed.

Lemma persistence_on_empty_pool_witness :
  let self := constructor (Some "/tmp/model") in
  (∃ err,
     Persistence.getInternalStatistics Persistence.obedient self []
     = (Rejected err, []))
  ∧ (∃ err,
       Persistence.getTorchModelFileStream Persistence.obedient self []
       = (Rejected err, []))
  ∧ (∃ err,
       Persistence.prepareBatch Persistence.obedient ["a"] "batch.t7" self []
       = inl err)
  ∧ Persistence.loadModelFile Persistence.obedient self [] = (Resolved [], []).
Proof.
  apply (persistence_on_empty_pool Persistence.obedient
           (constructor (Some "/tmp/model")) [] ["a"] "batch.t7").
  reflexivity.
Defined.

(** X22: [loadModelFile] reloads the workers one at a time and stops at
    the first that fails: the promise rejects with its error, the workers
    before it have reloaded the checkpoint and those after it are never
    asked to, so the pool is left with workers on different parameters. *)
Theorem loadModelFile_stops_at_failure H self log before p after err :
  processes self = before ++ p :: after →
  (∀ l q, q ∈ before →
     ∃ rep, Persistence.awaitMatchingReply "loaded"
              (Persistence.p_worker H l q Persistence.ReqLoad)
            = Resolved rep) →
  (∀ l, Persistence.awaitMatchingReply "loaded"
          (Persistence.p_worker H l p Persistence.ReqLoad) = Rejected err) →
  Persistence.loadModelFile H self log
  = (Rejected err,
     log ++ map (λ q, Persistence.PWrite q Persistence.ReqLoad "loaded")
              (before ++ [p])).
Proof.
  intros Hps Hok Hfail. unfold Persistence.loadModelFile. rewrite Hps.
  assert (∀ l,
            each_in (before ++ p :: after)
              (λ q, Persistence.exchange H q Persistence.ReqLoad "loaded") l
            = (Rejected err,
               l ++ map (λ q, Persistence.PWrite q Persistence.ReqLoad
                                "loaded") (before ++ [p]))) as ->; [|done].
  clear Hps. induction before as [|b before IH]; intros l.
  - simpl app. by rewrite each_in_exchange_cons, Hfail.
  - simpl app. rewrite each_in_exchange_cons.
    destruct (Hok l b) as [rep ->]; [apply list_elem_of_here|].
    rewrite IH by (intros l' q Hq; by apply Hok, list_elem_of_further).
    simpl. by rewrite <- app_assoc.
Qed.

Lemma loadModelFile_stops_at_failure_witness :
  Persistence.loadModelFile Persistence.second_cannot_load
    (Scenario.pool 3) []
  = (Rejected "model.t7 not found",
     [] ++ map (λ q, Persistence.PWrite q Persistence.ReqLoad "loaded")
             ([Process 0] ++ [Process 1])).
Proof.
  apply (loadModelFile_stops_at_failure Persistence.second_cannot_load
           (Scenario.pool 3) [] [Process 0] (Process 1) [Process 2]).
  - reflexivity.
  - intros l q [->|?%elem_of_nil]%elem_of_cons; [|done]. by eexists.
  - reflexivity.
Defined.

(** ** Retried renderings and silent workers *)

(** X24: a rendering failure is retried at once and to the end of the
    budget.  When the folder always lists the same files and one of its
    diagram files never renders, [extractNetworkDiagrams] makes all of its
    100 attempts with no timer between them, running the renderer on every
    diagram file at each attempt, before it rejects. *)
Theorem extractNetworkDiagrams_render_failure_retried E self log files f :
  let dotFiles := List.filter is_dot_file files in
  let attempt :=
    EvReaddir (scriptFolder self)
      :: map (λ f, EvExec f (scriptFolder self) maxBufferSize) dotFiles in
  (∀ l, readdir E l (scriptFolder self) = inr files) →
  f ∈ dotFiles →
  (∀ l, ∃ e, exec_dot E l f = inl e) →
  ∃ e,
    extractNetworkDiagrams E self log
    = (Rejected e, log ++ concat (replicate 100 attempt))
    ∧ polls (concat (replicate 100 attempt)) = 100
    ∧ renders (concat (replicate 100 attempt)) = 100 * length dotFiles
    ∧ waited (concat (replicate 100 attempt)) = 0.
Proof.
  intros dotFiles attempt Hdir Hf Hfail.
  assert (∀ more l,
            ∃ e, retry_loop more (poll_diagrams E self) l
                 = (Rejected e, l ++ concat (replicate (S more) attempt)))
    as Hloop.
  { induction more as [|more IH]; intros l;
      destruct (poll_render_fails E self l files f (Hdir l) Hf Hfail)
        as [e He]; cbn [retry_loop]; rewrite He.
    - exists e. simpl. by rewrite app_nil_r.
    - destruct (IH (l ++ attempt)) as [e' He']. exists e'.
      etransitivity; [exact He'|]. rewrite <- app_assoc. reflexivity. }
  destruct (Hloop 99 log) as [e He]. exists e.
  rewrite (extractNetworkDiagrams_listed E self log files (Hdir log)).
  split; [exact He|].
  assert (polls attempt = 1 ∧ renders attempt = length dotFiles
          ∧ waited attempt = 0) as (Hp & Hr & Hw).
  { subst attempt. split; [|split].
    - change (EvReaddir ?d :: ?l) with ([EvReaddir d] ++ l).
      by rewrite polls_app, polls_exec.
    - unfold renders. simpl. clear.
      induction dotFiles as [|g gs IH]; simpl; [done|]. by rewrite IH.
    - simpl. apply waited_exec. }
  assert (∀ k, polls (concat (replicate k attempt)) = k
               ∧ renders (concat (replicate k attempt)) = k * length dotFiles
               ∧ waited (concat (replicate k attempt)) = 0) as Hk.
  { induction k as [|k (IH1 & IH2 & IH3)]; [done|].
    change (concat (replicate (S k) attempt))
      with (attempt ++ concat (replicate k attempt)).
    rewrite polls_app, waited_app, IH1, IH3, Hp, Hw.
    unfold renders in *. rewrite List.filter_app, length_app, IH2, Hr.
    split; [done|]. split; [simpl; lia|done]. }
  apply Hk.
Qed.

Lemma extractNetworkDiagrams_render_failure_retried_witness :
  let self := Scenario.pool 1 in
  let dotFiles :=
    List.filter is_dot_file ["a.dot"; "TrainingScript.lua"; "b.dot"] in
  let attempt :=
    EvReaddir (scriptFolder self)
      :: map (λ f, EvExec f (scriptFolder self) maxBufferSize) dotFiles in
  ∃ e,
    extractNetworkDiagrams Scenario.first_render_fails self []
    = (Rejected e, [] ++ concat (replicate 100 attempt))
    ∧ polls (concat (replicate 100 attempt)) = 100
    ∧ renders (concat (replicate 100 attempt)) = 100 * length dotFiles
    ∧ waited (concat (replicate 100 attempt)) = 0.
Proof.
  apply (extractNetworkDiagrams_render_failure_retried
           Scenario.first_render_fails (Scenario.pool 1) []
           ["a.dot"; "TrainingScript.lua"; "b.dot"] "a.dot").
  - reflexivity.
  - vm_compute. apply list_elem_of_here.
  - intros l. by exists "Command failed".
Defined.

Lemma async_collect_pending {B} (fates : list (promise B)) :
  Pending ∈ fates →
  (∀ e, Rejected e ∉ fates) →
  async_collect fates = Pending.
Proof.
  induction fates as [|[b|e|] fates IH]; intros Hin Hnone.
  - by apply elem_of_nil in Hin.
  - apply elem_of_cons in Hin as [?|Hin]; [done|]. simpl.
    rewrite IH; [done|done|].
    intros e He. apply (Hnone e). by apply list_elem_of_further.
  - destruct (Hnone e). apply list_elem_of_here.
  - simpl. destruct (async_collect fates) as [bs|e|] eqn:Hc; [done| |done].
    apply async_collect_rejected_inv in Hc.
    destruct (Hnone e). by apply list_elem_of_further.
Qed.

(** X25: [processObjects] has no timeout.  When no exchange fails and the
    process that holds [ids[i]] never answers its evaluation, the promise
    never settles, although every bucket that is not empty has been
    written and the other workers may all have answered. *)
Theorem processObjects_hangs_without_timeout E ids self log i x p :
  ids !! i = Some x →
  processes self !! (i mod length (processes self)) = Some p →
  (∀ l samples,
     awaitMatchingOutput "evaluationCompleted"
       (worker E l p (MsgEvaluate samples)) = Pending) →
  (∀ l q samples e,
     awaitMatchingOutput "evaluationCompleted"
       (worker E l q (MsgEvaluate samples)) ≠ Rejected e) →
  ∃ bs,
    processBatches self ids = Some bs
    ∧ processObjects E ids self log
      = (Pending, log ++ map evaluate_write (filter (λ b, samples b ≠ []) bs)).
Proof.
  intros Hi Hp Hsilent Hnofail.
  assert (processes self ≠ []) as Hne
    by (intros Hnil; by rewrite Hnil in Hp).
  destruct (round_robin (processes self) ids Hne) as (bs & Hbs & Hlen & Hinv).
  set (N := length (processes self)) in *.
  destruct (Hinv _ _ Hp) as (b & Hb & Hproc & Hsamples).
  assert (samples b ≠ []) as Hnonempty.
  { intros Hnil. pose proof (Hsamples (i / N)) as Hk.
    assert (0 < N) as HN
      by (subst N; destruct (processes self); [done|simpl; lia]).
    pose proof (Nat.div_mod_eq i N).
    replace (i / N * N + i mod N) with i in Hk by lia.
    by rewrite Hnil, Hi in Hk. }
  exists bs. split; [done|].
  pose proof (processObjects_log E ids self log bs Hbs) as Hlog.
  unfold processObjects, processBatches, async_map in *. rewrite Hbs in *.
  pose proof (launch_all_fates (evaluate_batch E) bs log) as Hfates.
  destruct (launch_all bs (evaluate_batch E) log) as [fates log'].
  simpl in Hfates.
  assert (async_collect fates = Pending) as Hc.
  { apply async_collect_pending.
    - apply list_elem_of_lookup_2 in Hb as Hbin.
      destruct (Forall2_lookup_l _ _ _ _ _ Hfates Hb) as (fate & Hfate & l & Hl).
      unfold evaluate_batch in Hl.
      destruct (decide (length (samples b) = 0)) as [Hz|_];
        [by apply nil_length_inv in Hz|].
      simpl in Hl. rewrite Hproc, Hsilent in Hl. subst fate.
      apply list_elem_of_lookup. eauto.
    - intros e He. apply list_elem_of_lookup in He as [k Hk].
      destruct (Forall2_lookup_r _ _ _ _ _ Hfates Hk) as (b' & _ & l & Hl).
      unfold evaluate_batch in Hl.
      destruct (decide (length (samples b') = 0)); [done|].
      simpl in Hl. by apply Hnofail in Hl. }
  rewrite Hc in *. simpl in Hlog. by subst log'.
Qed.

Lemma processObjects_hangs_without_timeout_witness :
  ∃ bs,
    processBatches (Scenario.pool 3) ["a"; "b"; "c"; "d"] = Some bs
    ∧ processObjects silent_second_worker ["a"; "b"; "c"; "d"]
        (Scenario.pool 3) []
      = (Pending, [] ++ map evaluate_write (filter (λ b, samples b ≠ []) bs)).
Proof.
  apply (processObjects_hangs_without_timeout silent_second_worker
           ["a"; "b"; "c"; "d"] (Scenario.pool 3) [] 1 "b" (Process 1)).
  - reflexivity.
  - reflexivity.
  - reflexivity.
  - intros l q samples e. simpl. destruct (decide (pid q = 1)); simpl; done.
Defined.
